(** * Nimbus: waitlist rate limiting, waitlist signup and route middleware

    A shallow embedding of
    - [apps/web/app/api/waitlist/join/route.ts] (in-memory rate limiter and
      its POST handler), module [InMemory];
    - the database-backed variant of the same route (checkRateLimitDB and
      its POST handler), module [DbBacked];
    - [apps/web/middleware.ts], module [Middleware];
    - the table [rate_limit_attempts] of migration 0002;
    - the Pagination Cursor Manager of the specification, which the
      sources do not contain, module [CursorManager].

    Conventions of the embedding.
    - JavaScript numbers that hold counters and millisecond timestamps are
      integers of [Z]; a [Date] is its [getTime()] value.
    - JavaScript strings are [string]s of ASCII characters; [toLowerCase]
      and [trim] act on the ASCII letters and the ASCII white space.
    - [Date.now()] and [new Date()] are inputs: the rate limiters receive
      the reading as the argument [now], the handlers read it from [Env].
    - Code that awaits the database runs in the monad [Async]: a statement
      may reject (throw), the state keeps what was written before. *)

From Stdlib Require Import ZArith String Ascii List Lia Bool Sorted.
From stdpp Require Import gmap strings list sorting.

Open Scope string_scope.
Open Scope list_scope.
Open Scope Z_scope.

(** ** JavaScript helpers *)

(** Truthiness of [string | null | undefined]: only a non-empty string
    is truthy. *)
Definition truthy (v : option string) : bool :=
  match v with
  | Some s => negb (String.eqb s "")
  | None => false
  end.

(** [a || b] on possibly-null strings. *)
Definition js_or (a b : option string) : option string :=
  if truthy a then a else b.

(** [Math.ceil(a / b)] for an integer [a] and a positive integer [b]. *)
Definition ceil_div (a b : Z) : Z := - ((- a) / b).

(** ** The two rate-limit stores and the waitlist table *)

(** Value type of the [rateLimitStore] map of route.ts. *)
Record RateLimitRecord := { count : Z; resetTime : Z }.

(** A row of [rate_limit_attempts] (migration 0002): identifier is the
    primary key. *)
Record RateLimitAttempt := { identifier : string; attempts : Z; expiresAt : Z }.

(** A row of [waitlist]. *)
Record WaitlistRow := { id : string; email : string }.

(** What both rate limiters return. *)
Record RateLimitResult := { allowed : bool; remaining : Z; res_resetTime : Z }.

Record Database := {
  rate_limit_attempts : list RateLimitAttempt;
  waitlist : list WaitlistRow
}.

(** The state a request handler can touch: the module-level [Map] of
    route.ts and the Postgres database. *)
Record World := {
  rateLimitStore : gmap string RateLimitRecord;
  db : Database
}.

Definition with_store (s : gmap string RateLimitRecord) (w : World) : World :=
  {| rateLimitStore := s; db := db w |}.
Definition with_db (d : Database) (w : World) : World :=
  {| rateLimitStore := rateLimitStore w; db := d |}.
Definition with_attempts (t : list RateLimitAttempt) (d : Database) : Database :=
  {| rate_limit_attempts := t; waitlist := waitlist d |}.
Definition with_waitlist (t : list WaitlistRow) (d : Database) : Database :=
  {| rate_limit_attempts := rate_limit_attempts d; waitlist := t |}.

(** Module initialisation: [new Map()] for the store; the database is
    whatever Postgres holds. A process restart runs it again. *)
Definition restart (w : World) : World := with_store ∅ w.

Definition empty_db : Database := {| rate_limit_attempts := []; waitlist := [] |}.
Definition empty_world : World := {| rateLimitStore := ∅; db := empty_db |}.

(** ** The monad of asynchronous handler code *)

Inductive Statement :=
| SelectAttempt | UpsertAttempt | UpdateAttempt | SelectWaitlist | InsertWaitlist.

Inductive Event :=
| EvReadBody
| EvQuery (q : Statement).

(** What the environment answers during one invocation. *)
Record Env := {
  now_check : Z;            (* the clock read when the limiter runs *)
  now_reply : Z;            (* the clock read when a 429 is built *)
  db_fault : nat -> bool;   (* does the n-th statement of this invocation reject? *)
  nanoid : string           (* the id nanoid() generates *)
}.

Record Machine := { world : World; issued : nat; events : list Event }.

Definition boot (w : World) : Machine := {| world := w; issued := 0; events := [] |}.

Inductive Outcome (A : Type) :=
| Resolved (a : A) (m : Machine)
| Rejected (m : Machine).
Arguments Resolved {A} a m.
Arguments Rejected {A} m.

Definition Async (A : Type) : Type := Env -> Machine -> Outcome A.

Definition ret {A} (a : A) : Async A := fun _ m => Resolved a m.

Definition bind {A B} (c : Async A) (k : A -> Async B) : Async B :=
  fun env m =>
    match c env m with
    | Resolved a m' => k a env m'
    | Rejected m' => Rejected m'
    end.

Notation "x <- c ;; k" := (bind c (fun x => k))
  (at level 100, c at next level, right associativity).
Notation "c ;;; k" := (bind c (fun _ => k))
  (at level 100, right associativity).

(** [try { body } catch (error) { handler }] *)
Definition try_catch {A} (body : Async A) (handler : Async A) : Async A :=
  fun env m =>
    match body env m with
    | Resolved a m' => Resolved a m'
    | Rejected m' => handler env m'
    end.

Definition ask {A} (f : Env -> A) : Async A := fun env m => Resolved (f env) m.

Definition emit (e : Event) (m : Machine) : Machine :=
  {| world := world m; issued := issued m; events := events m ++ [e] |}.

(** One awaited database statement: it rejects when the environment says
    so, otherwise it runs on the database. *)
Definition query {A} (q : Statement) (run : Database -> A * Database) : Async A :=
  fun env m =>
    let m1 := {| world := world m; issued := S (issued m);
                 events := events m ++ [EvQuery q] |} in
    if db_fault env (issued m) then Rejected m1
    else let '(a, d) := run (db (world m)) in
         Resolved a {| world := with_db d (world m); issued := issued m1;
                       events := events m1 |}.

(** Synchronous code on the module-level map. *)
Definition on_store {A}
    (f : gmap string RateLimitRecord -> A * gmap string RateLimitRecord) : Async A :=
  fun _ m =>
    let '(a, s) := f (rateLimitStore (world m)) in
    Resolved a {| world := with_store s (world m); issued := issued m;
                  events := events m |}.

Definition no_faults : nat -> bool := fun _ => false.

(** ** Strings *)

Definition is_upper (c : ascii) : bool :=
  let n := nat_of_ascii c in ((65 <=? n) && (n <=? 90))%nat.
Definition is_lower (c : ascii) : bool :=
  let n := nat_of_ascii c in ((97 <=? n) && (n <=? 122))%nat.
Definition is_digit (c : ascii) : bool :=
  let n := nat_of_ascii c in ((48 <=? n) && (n <=? 57))%nat.
Definition is_letter (c : ascii) : bool := is_upper c || is_lower c.
Definition is_white (c : ascii) : bool :=
  let n := nat_of_ascii c in (((9 <=? n) && (n <=? 13)) || (n =? 32))%nat.

Definition lower_char (c : ascii) : ascii :=
  if is_upper c then ascii_of_nat (nat_of_ascii c + 32) else c.

(** [s.toLowerCase()] *)
Fixpoint toLowerCase (s : string) : string :=
  match s with
  | EmptyString => EmptyString
  | String c r => String (lower_char c) (toLowerCase r)
  end.

Fixpoint trimStart (s : string) : string :=
  match s with
  | EmptyString => EmptyString
  | String c r => if is_white c then trimStart r else s
  end.

Fixpoint trimEnd (s : string) : string :=
  match s with
  | EmptyString => EmptyString
  | String c r =>
      let r' := trimEnd r in
      if is_white c && String.eqb r' "" then EmptyString else String c r'
  end.

(** [s.trim()] *)
Definition trim (s : string) : string := trimEnd (trimStart s).

(** [s.split(sep)] for a one-character separator; never the empty list. *)
Fixpoint split (sep : ascii) (s : string) : list string :=
  match s with
  | EmptyString => [EmptyString]
  | String c r =>
      if Ascii.eqb c sep then EmptyString :: split sep r
      else match split sep r with
           | [] => [String c EmptyString]
           | w :: ws => String c w :: ws
           end
  end.

(** [s.endsWith(suffix)] *)
Fixpoint endsWith (s suffix : string) : bool :=
  String.eqb s suffix ||
  match s with
  | EmptyString => false
  | String _ r => endsWith r suffix
  end.

(** [s.startsWith(p)] *)
Definition startsWith (s p : string) : bool := String.prefix p s.

Fixpoint all_chars (p : ascii -> bool) (s : string) : bool :=
  match s with
  | EmptyString => true
  | String c r => p c && all_chars p r
  end.

(** ** Requests, JSON bodies and responses *)

#[local] Set Warnings "-register-all".
Inductive JsonValue :=
| JNull
| JBool (b : bool)
| JNumber (n : Z)
| JString (s : string)
| JArray (items : list JsonValue)
| JObject (fields : list (string * JsonValue)).

(** Property read on a parsed object: with a repeated key the last
    occurrence is the one [JSON.parse] keeps. *)
Fixpoint json_get (key : string) (fields : list (string * JsonValue))
  : option JsonValue :=
  match fields with
  | [] => None
  | (k, v) :: rest =>
      match json_get key rest with
      | Some v' => Some v'
      | None => if String.eqb k key then Some v else None
      end
  end.

Record URL := { origin : string; path : string; search : string }.

Record Request := {
  url : URL;                          (* request.url; nextUrl.pathname is its path *)
  ip : option string;                 (* request.ip *)
  headers : list (string * string);   (* by lower-case name *)
  json : option JsonValue             (* what request.json() parses; None: it throws *)
}.

(** [request.headers.get(name)] *)
Fixpoint headers_get (name : string) (hs : list (string * string)) : option string :=
  match hs with
  | [] => None
  | (k, v) :: rest => if String.eqb k name then Some v else headers_get name rest
  end.

(** [a || b || "literal"] *)
Definition js_or_else (a : option string) (d : string) : string :=
  match a with
  | Some s => if truthy a then s else d
  | None => d
  end.

(** The client address both route files compute:
    [headers.get("x-forwarded-for") || headers.get("x-real-ip") || "anonymous"]. *)
Definition client_ip (request : Request) : string :=
  js_or_else (js_or (headers_get "x-forwarded-for" (headers request))
                    (headers_get "x-real-ip" (headers request)))
             "anonymous".

Inductive ZodIssue :=
| invalid_type                     (* not an object, or email missing or not a string *)
| invalid_string (message : string)
| custom (message : string).

Inductive ErrorValue :=
| ErrText (message : string)
| ErrFormat (issues : list ZodIssue)        (* result.error.format() *)
| ErrFirst (issue : option ZodIssue).       (* result.error.errors[0]?.message *)

Record ResponseBody := {
  success : bool;
  error : option ErrorValue;
  retryAfter : option Z
}.

Record Response := { status : Z; body : ResponseBody }.

(** [NextResponse.json(body, {status})] *)
Definition NextResponse_json (b : ResponseBody) (st : Z) : Response :=
  {| status := st; body := b |}.

(** [await request.json()] *)
Definition request_json (request : Request) : Async JsonValue :=
  fun _ m =>
    match json request with
    | Some v => Resolved v (emit EvReadBody m)
    | None => Rejected (emit EvReadBody m)
    end.

(** ** The waitlist signup shared by both route files *)

Module Waitlist.

Definition ALLOWED_DOMAINS : list string :=
  ["gmail.com"; "outlook.com"; "yahoo.com"; "proton.me"].

(** [/^[a-z]{2,63}$/i.test(tld)] *)
Definition tld_ok (tld : string) : bool :=
  all_chars is_letter tld &&
  ((2 <=? String.length tld) && (String.length tld <=? 63))%nat.

(** The allow-list test of the refinement:
    [ALLOWED_DOMAINS.some(a => domain === a || domain.endsWith(`.${a}`))]. *)
Definition domain_allowed (domain : string) : bool :=
  existsb (fun a => String.eqb domain a || endsWith domain ("." +:+ a))
          ALLOWED_DOMAINS.

(** The callback given to [.refine]. *)
Definition refine_email (email_ : string) : bool :=
  match nth_error (split "@" email_) 1 with
  | None => false
  | Some domain =>
      if String.eqb domain "" then false
      else if negb (domain_allowed domain) then false
      else
        let labels := split "." domain in
        if ((length labels <? 2) || (3 <? length labels))%nat then false
        else tld_ok (List.last labels "")
  end.

Section Schema.

(** zod's [z.string().email()] test, a library function. *)
Variable isEmail : string -> bool.

(** [emailSchema.safeParse(body)]; [refineMessage] is the message of the
    refinement, the one text in which the two route files differ. *)
Definition safeParse (refineMessage : string) (b : JsonValue)
  : string + list ZodIssue :=
  match b with
  | JObject fields =>
      match json_get "email" fields with
      | Some (JString e) =>
          let issues :=
            (if isEmail e then []
             else [invalid_string "Please enter a valid email address"]) ++
            (if refine_email e then [] else [custom refineMessage]) in
          match issues with
          | [] => inl e
          | _ => inr issues
          end
      | _ => inr [invalid_type]
      end
  | _ => inr [invalid_type]
  end.

(** [select().from(waitlist).where(eq(waitlist.email, e)).limit(1)
    .then(rows => rows[0])] *)
Definition select_email (e : string) (d : Database)
  : option WaitlistRow * Database :=
  (head (filter (fun r => email r = e) (waitlist d)), d).

(** [insert(waitlist).values(row)] *)
Definition insert_row (row : WaitlistRow) (d : Database) : unit * Database :=
  (tt, with_waitlist (waitlist d ++ [row]) d).

(** The handler from [await request.json()] to the 201 response; the two
    route files differ in [refineMessage] and in [report], the way a zod
    failure is put in the 400 body. *)
Definition join (refineMessage : string) (report : list ZodIssue -> ErrorValue)
    (request : Request) : Async Response :=
  b <- request_json request ;;
  match safeParse refineMessage b with
  | inr issues =>
      ret (NextResponse_json
             {| success := false; error := Some (report issues);
                retryAfter := None |} 400)
  | inl e =>
      existingEmail <- query SelectWaitlist (select_email (trim (toLowerCase e))) ;;
      match existingEmail with
      | Some _ =>
          ret (NextResponse_json
                 {| success := false;
                    error := Some (ErrText "This email is already on the waitlist");
                    retryAfter := None |} 400)
      | None =>
          i <- ask nanoid ;;
          query InsertWaitlist
                (insert_row {| id := i; email := trim (toLowerCase e) |}) ;;;
          ret (NextResponse_json
                 {| success := true; error := None; retryAfter := None |} 201)
      end
  end.

End Schema.

(** An instance for [isEmail]: the pattern of zod 3's email check. The
    text has no leading dot and no two dots in a row; it is local@host with
    a non-empty local part of letters, digits and _ ' + - . ending in a
    letter, a digit or _ + -; the host is one or more labels (a letter or
    digit, then letters, digits and hyphens), each followed by a dot, and a
    last label of two or more letters. Letters match in either case. *)
Definition is_alnum (c : ascii) : bool := is_letter c || is_digit c.

Definition local_char (c : ascii) : bool :=
  is_alnum c || existsb (Ascii.eqb c) ["_"; "'"; "+"; "-"; "."]%char.

Definition local_last_char (c : ascii) : bool :=
  is_alnum c || existsb (Ascii.eqb c) ["_"; "+"; "-"]%char.

Definition host_label (l : string) : bool :=
  match l with
  | EmptyString => false
  | String c r => is_alnum c && all_chars (fun x => is_alnum x || Ascii.eqb x "-") r
  end.

Fixpoint has_double_dot (s : string) : bool :=
  match s with
  | String "." (String "." _ as r) => true
  | String _ r => has_double_dot r
  | EmptyString => false
  end.

Fixpoint last_char (s : string) : option ascii :=
  match s with
  | EmptyString => None
  | String c EmptyString => Some c
  | String _ r => last_char r
  end.

Definition zod3_email (s : string) : bool :=
  negb (String.prefix "." s) && negb (has_double_dot s) &&
  match split "@" s with
  | [loc; host] =>
      all_chars local_char loc &&
      match last_char loc with Some c => local_last_char c | None => false end &&
      (let labels := split "." host in
       (2 <=? length labels)%nat &&
       forallb host_label (removelast labels) &&
       (let tld := List.last labels "" in
        all_chars is_letter tld && (2 <=? String.length tld)%nat))
  | _ => false
  end.

End Waitlist.

(** ** route.ts: the in-memory limiter *)

Module InMemory.

(** [checkRateLimit(ip, limit, windowMs)], with the [Date.now()] reading
    of its first line as [now]. *)
Definition checkRateLimit (ip : string) (limit windowMs now : Z)
    (store : gmap string RateLimitRecord)
  : RateLimitResult * gmap string RateLimitRecord :=
  let fresh :=
    ({| allowed := true; remaining := limit - 1; res_resetTime := now + windowMs |},
     <[ip := {| count := 1; resetTime := now + windowMs |}]> store) in
  match store !! ip with
  | None => fresh
  | Some record =>
      if now >? resetTime record then fresh
      else if count record >=? limit then
        ({| allowed := false; remaining := 0; res_resetTime := resetTime record |},
         store)
      else
        let record' := {| count := count record + 1; resetTime := resetTime record |} in
        ({| allowed := true; remaining := limit - count record';
            res_resetTime := resetTime record' |},
         <[ip := record']> store)
  end.

(** The body of the [setInterval] callback, with its [Date.now()] reading. *)
Definition cleanup (now : Z) (store : gmap string RateLimitRecord)
  : gmap string RateLimitRecord :=
  filter (fun kv => ¬ (now > resetTime kv.2)) store.

Section Route.

Variable isEmail : string -> bool.

(** The [try] block of [POST]. *)
Definition POST_try (request : Request) : Async Response :=
  let ip_ := client_ip request in
  now <- ask now_check ;;
  rateLimit <- on_store (checkRateLimit ip_ 3 60000 now) ;;
  if negb (allowed rateLimit) then
    now' <- ask now_reply ;;
    ret (NextResponse_json
           {| success := false;
              error := Some (ErrText "Too many requests. Please wait before trying again.");
              retryAfter := Some (ceil_div (res_resetTime rateLimit - now') 1000) |}
           429)
  else
    Waitlist.join isEmail "Email domain or TLD is not allowed" ErrFormat request.

(** [POST(request)] of route.ts. *)
Definition POST (request : Request) : Async Response :=
  try_catch (POST_try request)
    (ret (NextResponse_json
            {| success := false; error := Some (ErrText "Internal server error");
               retryAfter := None |} 500)).

End Route.

End InMemory.

(** ** The database-backed limiter *)

Module DbBacked.

(** [select().from(rateLimitAttempts).where(eq(identifier, ip)).limit(1)] *)
Definition select_attempt (ip : string) (d : Database)
  : list RateLimitAttempt * Database :=
  (take 1 (filter (fun r => identifier r = ip) (rate_limit_attempts d)), d).

(** [insert(...).values(row).onConflictDoUpdate({target: identifier,
    set: {count: 1, expiresAt: newExpiry}})] *)
Definition upsert_attempt (ip : string) (newExpiry : Z) (d : Database)
  : unit * Database :=
  let t := rate_limit_attempts d in
  let row := {| identifier := ip; attempts := 1; expiresAt := newExpiry |} in
  let t' :=
    if existsb (fun r => bool_decide (identifier r = ip)) t then
      map (fun r => if bool_decide (identifier r = ip)
                    then {| identifier := identifier r; attempts := 1;
                            expiresAt := newExpiry |}
                    else r) t
    else t ++ [row] in
  (tt, with_attempts t' d).

(** [update(rateLimitAttempts).set({count: sql`count + 1`})
    .where(eq(identifier, ip))] *)
Definition increment_attempt (ip : string) (d : Database) : unit * Database :=
  (tt, with_attempts
         (map (fun r => if bool_decide (identifier r = ip)
                        then {| identifier := identifier r;
                                attempts := attempts r + 1;
                                expiresAt := expiresAt r |}
                        else r) (rate_limit_attempts d)) d).

(** [checkRateLimitDB(ip, limit, windowMs)], with [new Date()] as [now]. *)
Definition checkRateLimitDB (ip : string) (limit windowMs now : Z)
  : Async RateLimitResult :=
  attempts_ <- query SelectAttempt (select_attempt ip) ;;
  let fresh :=
    let newExpiry := now + windowMs in
    query UpsertAttempt (upsert_attempt ip newExpiry) ;;;
    ret {| allowed := true; remaining := limit - 1; res_resetTime := newExpiry |} in
  match attempts_ with
  | [] => fresh
  | currentAttempt :: _ =>
      if expiresAt currentAttempt <? now then fresh
      else if attempts currentAttempt >=? limit then
        ret {| allowed := false; remaining := 0;
               res_resetTime := expiresAt currentAttempt |}
      else
        query UpdateAttempt (increment_attempt ip) ;;;
        ret {| allowed := true;
               remaining := limit - (attempts currentAttempt + 1);
               res_resetTime := expiresAt currentAttempt |}
  end.

Section Route.

Variable isEmail : string -> bool.

(** The [try] block of [POST]. *)
Definition POST_try (request : Request) : Async Response :=
  let ip_ := client_ip request in
  now <- ask now_check ;;
  rateLimitResult <- checkRateLimitDB ip_ 3 120000 now ;;
  if negb (allowed rateLimitResult) then
    now' <- ask now_reply ;;
    ret (NextResponse_json
           {| success := false;
              error := Some (ErrText "Too many requests. Please wait before trying again.");
              retryAfter := Some (ceil_div (res_resetTime rateLimitResult - now') 1000) |}
           429)
  else
    Waitlist.join isEmail "Invalid email, please try again"
                  (fun issues => ErrFirst (head issues)) request.

(** [POST(request)] of the database-backed route file. *)
Definition POST (request : Request) : Async Response :=
  try_catch (POST_try request)
    (ret (NextResponse_json
            {| success := false; error := Some (ErrText "Internal server error");
               retryAfter := None |} 500)).

End Route.

End DbBacked.

(** ** middleware.ts *)

Module Middleware.

Inductive MiddlewareResponse :=
| NextResponse_new (payload : list (string * string)) (status_ : Z)
                   (headers_ : list (string * string))
| NextResponse_redirect (target : URL)
| NextResponse_next.

(** [new URL("/", base)] *)
Definition URL_root (base : URL) : URL :=
  {| origin := origin base; path := "/"; search := "" |}.

Section Handler.

(** [getSessionCookie] of better-auth and the [check] method of the
    next-rate-limit limiter are library code: the first reads the request,
    the second rejects when the token is over its limit. *)
Variable getSessionCookie : Request -> option string.
Variable limiter_rejects : Z -> string -> bool.

Definition rate_limited : MiddlewareResponse :=
  NextResponse_new
    [("error", "Rate limit exceeded");
     ("message",
      "You've hit your limit for requests. Please wait before trying again.")]
    429
    [("Content-Type", "application/json");
     ("X-RateLimit-Limit", "5");
     ("X-RateLimit-Remaining", "0");
     ("Retry-After", "300")].

(** [middleware(request)] *)
Definition middleware (request : Request) : MiddlewareResponse :=
  let pathname := path (url request) in
  let limited :=
    if startsWith pathname "/api/waitlist" then
      let ip_ := js_or_else (js_or (ip request)
                                   (headers_get "x-forwarded-for" (headers request)))
                            "anonymous" in
      limiter_rejects 5 ("waitlist:" +:+ ip_)
    else false in
  if limited then rate_limited
  else if startsWith pathname "/app" && negb (truthy (getSessionCookie request))
  then NextResponse_redirect (URL_root (url request))
  else NextResponse_next.

End Handler.

End Middleware.

(** ** Pagination Cursor Manager *)

Module CursorManager.

Inductive Error := InvalidCursor.

(** Modelled from the spec: the Pagination Cursor Manager (section 4.3) is
    not part of the sources. A cursor wraps the native token with the
    source id and the operation signature it was issued for, an embedded
    expiry and an integrity tag. *)
Record Cursor := {
  sourceId : string;
  operationSignature : string;
  nativeToken : string;
  expiry : Z;
  tag : string
}.

Section Manager.

(** The keyed integrity function and the time to live. *)
Variable seal : string -> string -> string -> Z -> string.
Variable ttl : Z.

(** Modelled from the spec: [issue(sourceId, operationSignature,
    nativeToken) -> Cursor] "opaque-encodes the triple with an embedded
    expiry and an integrity tag"; [now] is the time of issue. *)
Definition issue (now : Z) (src sig tok : string) : Cursor :=
  {| sourceId := src; operationSignature := sig; nativeToken := tok;
     expiry := now + ttl; tag := seal src sig tok (now + ttl) |}.

(** Modelled from the spec: [resolve(cursor, sourceId, operationSignature)
    -> nativeToken] "fails with InvalidCursor if the triple doesn't match,
    the integrity tag fails, or the TTL has elapsed"; [now] is the time of
    the call. *)
Definition resolve (now : Z) (c : Cursor) (src sig : string) : Error + string :=
  if negb (String.eqb (sourceId c) src && String.eqb (operationSignature c) sig)
  then inl InvalidCursor
  else if negb (String.eqb (tag c)
                  (seal (sourceId c) (operationSignature c) (nativeToken c) (expiry c)))
  then inl InvalidCursor
  else if expiry c <=? now then inl InvalidCursor
  else inr (nativeToken c).

End Manager.

End CursorManager.

(** ** Sequences of limiter calls *)

(** One call of a limiter: the arguments and the clock reading. *)
Record Call := { call_ip : string; call_limit : Z; call_window : Z; call_now : Z }.

(** Calls paired with what they returned, oldest first. *)
Abbreviation History := (list (Call * RateLimitResult)).

(** Sequential calls of [checkRateLimit] on the module-level map. *)
Fixpoint run_mem (calls : list Call) (store : gmap string RateLimitRecord)
  : History * gmap string RateLimitRecord :=
  match calls with
  | [] => ([], store)
  | c :: rest =>
      let '(r, s) := InMemory.checkRateLimit (call_ip c) (call_limit c)
                       (call_window c) (call_now c) store in
      let '(h, s') := run_mem rest s in
      ((c, r) :: h, s')
  end.

(** Sequential (awaited) calls of [checkRateLimitDB]. *)
Fixpoint run_db (calls : list Call) : Async History :=
  match calls with
  | [] => ret []
  | c :: rest =>
      r <- DbBacked.checkRateLimitDB (call_ip c) (call_limit c)
             (call_window c) (call_now c) ;;
      h <- run_db rest ;;
      ret ((c, r) :: h)
  end.

(** An environment in which no statement rejects. *)
Definition quiet : Env :=
  {| now_check := 0; now_reply := 0; db_fault := no_faults; nanoid := "" |}.

(** The row of an identifier and its reading as a map entry. *)
Definition row_of (ip : string) (t : list RateLimitAttempt) : option RateLimitAttempt :=
  head (filter (fun r => identifier r = ip) t).

Definition as_record (r : RateLimitAttempt) : RateLimitRecord :=
  {| count := attempts r; resetTime := expiresAt r |}.

(** The table holds what the map holds. *)
Definition agree (s : gmap string RateLimitRecord) (t : list RateLimitAttempt) : Prop :=
  NoDup (map identifier t) /\ forall ip, s !! ip = as_record <$> row_of ip t.

(** The handlers' own invocations, for requests of one IP at given times. *)
Definition as_invoked (ip : string) (windowMs : Z) (times : list Z) : list Call :=
  map (fun t => {| call_ip := ip; call_limit := 3; call_window := windowMs;
                   call_now := t |}) times.

Definition decisions (h : History) : list bool := map (fun p => allowed (snd p)) h.

(** Calls with one limit and one window. *)
Definition uniform (L W : Z) (reqs : list (string * Z)) : list Call :=
  map (fun p => {| call_ip := fst p; call_limit := L; call_window := W;
                   call_now := snd p |}) reqs.

Definition chronological (times : list Z) : Prop := StronglySorted Z.le times.

(** How many calls of [ip] with a clock reading in [lo, hi] were allowed. *)
Definition granted (ip : string) (lo hi : Z) (h : History) : nat :=
  length (filter (fun p => bool_decide (call_ip (fst p) = ip) && allowed (snd p)
                           && (lo <=? call_now (fst p)) && (call_now (fst p) <=? hi))
                 h).

(** The window that ends at [r] is one the limiter opened for [ip]. *)
Definition window_of (ip : string) (r : Z) (h : History) : Prop :=
  exists c res, In (c, res) h /\ call_ip c = ip /\ res_resetTime res = r.

(** The admission bound for limit [L] and window [W], for both limiters. *)
Definition AdmissionBound (L W : Z) : Prop :=
  forall reqs : list (string * Z),
    chronological (map snd reqs) ->
    let '(h, store) := run_mem (uniform L W reqs) ∅ in
    (forall ip r, window_of ip r h -> Z.of_nat (granted ip (r - W) r h) <= L) /\
    (forall ip record, store !! ip = Some record -> 1 <= count record <= L) /\
    exists m, run_db (uniform L W reqs) quiet (boot empty_world) = Resolved h m /\
              forall row, In row (rate_limit_attempts (db (world m))) ->
                          1 <= attempts row <= L.

(** The limiter interleaved with its clean-up timer. *)
Inductive Tick :=
| Hit (c : Call)
| Sweep (now : Z).

Definition tick_time (t : Tick) : Z :=
  match t with Hit c => call_now c | Sweep now => now end.

Fixpoint run_ticks (ticks : list Tick) (store : gmap string RateLimitRecord)
  : History * gmap string RateLimitRecord :=
  match ticks with
  | [] => ([], store)
  | Hit c :: rest =>
      let '(r, s) := InMemory.checkRateLimit (call_ip c) (call_limit c)
                       (call_window c) (call_now c) store in
      let '(h, s') := run_ticks rest s in
      ((c, r) :: h, s')
  | Sweep now :: rest => run_ticks rest (InMemory.cleanup now store)
  end.

Fixpoint checks (ticks : list Tick) : list Call :=
  match ticks with
  | [] => []
  | Hit c :: rest => c :: checks rest
  | Sweep _ :: rest => checks rest
  end.

(** ** Sequences of requests *)

(** What a handler leaves behind: the response, if it returned one, and
    the world. *)
Definition settle (o : Outcome Response) : option Response * World :=
  match o with
  | Resolved r m => (Some r, world m)
  | Rejected m => (None, world m)
  end.

(** Requests served one after the other, each in its own environment. *)
Fixpoint serve (handler : Request -> Async Response)
    (reqs : list (Request * Env)) (w : World) : list (option Response) * World :=
  match reqs with
  | [] => ([], w)
  | (r, env) :: rest =>
      let '(a, w1) := settle (handler r env (boot w)) in
      let '(l, w2) := serve handler rest w1 in
      (a :: l, w2)
  end.

Definition verdict {A} (o : Outcome A) : option A :=
  match o with Resolved a _ => Some a | Rejected _ => None end.

Definition statuses (l : list (option Response)) : list (option Z) :=
  map (option_map status) l.

(** A signup request of one client address, and an environment without
    faults at clock reading [t]. *)
Definition signup (ip_ e : string) : Request :=
  {| url := {| origin := "https://nimbus.example"; path := "/api/waitlist/join";
               search := "" |};
     ip := None;
     headers := [("x-forwarded-for", ip_)];
     json := Some (JObject [("email", JString e)]) |}.

Definition at_time (t : Z) : Env :=
  {| now_check := t; now_reply := t; db_fault := no_faults; nanoid := "id" |}.

(** The normal form under which the waitlist stores an address. *)
Definition normalized (e : string) : string := trim (toLowerCase e).

(** The domain the refinement looks at: the text between the first and
    the second at-sign. *)
Definition domain_of (e : string) : option string := nth_error (split "@" e) 1.

(** [d] differs only by letter case from a domain the allow-list accepts
    (an allowed domain or a subdomain of one). *)
Definition case_variant_of_allowed (d : string) : Prop :=
  exists a, Waitlist.domain_allowed a = true /\ d <> a /\ toLowerCase d = toLowerCase a.

(** ** Invariants used in the proofs *)


(** [s1] is [s2] with some entries that expired before [T] removed. *)
Definition swept (T : Z) (s1 s2 : gmap string RateLimitRecord) : Prop :=
  forall ip, s1 !! ip = s2 !! ip \/
             (s1 !! ip = None /\ exists rec, s2 !! ip = Some rec /\ resetTime rec < T).

(** ** The responses of the route handlers *)

Definition response_400 (err : ErrorValue) : Response :=
  NextResponse_json {| success := false; error := Some err; retryAfter := None |} 400.
Definition response_201 : Response :=
  NextResponse_json {| success := true; error := None; retryAfter := None |} 201.
Definition response_500 : Response :=
  NextResponse_json {| success := false; error := Some (ErrText "Internal server error");
                       retryAfter := None |} 500.
Definition response_429 (ra : Z) : Response :=
  NextResponse_json
    {| success := false;
       error := Some (ErrText "Too many requests. Please wait before trying again.");
       retryAfter := Some ra |} 429.

(** Some row of the table holds the address [e]. *)
Definition known (e : string) (t : list WaitlistRow) : Prop :=
  exists row, In row t /\ email row = e.

Section Outcomes.

Variable isEmail : string -> bool.
Variable refineMessage : string.
Variable report : list ZodIssue -> ErrorValue.

(** How [join] can end. *)
Inductive join_outcome (request : Request) (env : Env) (m : Machine)
  : Outcome Response -> Prop :=
| join_bad_json m' :
    json request = None ->
    world m' = world m -> events m' = events m ++ [EvReadBody] ->
    join_outcome request env m (Rejected m')
| join_invalid b issues m' :
    json request = Some b ->
    Waitlist.safeParse isEmail refineMessage b = inr issues ->
    world m' = world m -> events m' = events m ++ [EvReadBody] ->
    join_outcome request env m (Resolved (response_400 (report issues)) m')
| join_select_fails b e m' :
    json request = Some b ->
    Waitlist.safeParse isEmail refineMessage b = inl e ->
    db_fault env (issued m) = true ->
    world m' = world m ->
    join_outcome request env m (Rejected m')
| join_duplicate b e m' :
    json request = Some b ->
    Waitlist.safeParse isEmail refineMessage b = inl e ->
    db_fault env (issued m) = false ->
    known (normalized e) (waitlist (db (world m))) ->
    world m' = world m ->
    join_outcome request env m
      (Resolved (response_400 (ErrText "This email is already on the waitlist")) m')
| join_insert_fails b e m' :
    json request = Some b ->
    Waitlist.safeParse isEmail refineMessage b = inl e ->
    db_fault env (issued m) = false ->
    ~ known (normalized e) (waitlist (db (world m))) ->
    db_fault env (S (issued m)) = true ->
    world m' = world m ->
    join_outcome request env m (Rejected m')
| join_inserted b e m' :
    json request = Some b ->
    Waitlist.safeParse isEmail refineMessage b = inl e ->
    db_fault env (issued m) = false ->
    ~ known (normalized e) (waitlist (db (world m))) ->
    db_fault env (S (issued m)) = false ->
    rateLimitStore (world m') = rateLimitStore (world m) ->
    rate_limit_attempts (db (world m')) = rate_limit_attempts (db (world m)) ->
    waitlist (db (world m')) =
      waitlist (db (world m)) ++ [{| id := nanoid env; email := normalized e |}] ->
    join_outcome request env m (Resolved response_201 m').

End Outcomes.

(** What the [catch] clause of [POST] makes of the outcome of its [try] block. *)
Definition caught (o : Outcome Response) : Outcome Response :=
  match o with
  | Resolved a m' => Resolved a m'
  | Rejected m' => Resolved response_500 m'
  end.

(** The text does not begin with white space. *)
Definition clean_start (s : string) : Prop :=
  match s with
  | EmptyString => True
  | String c _ => is_white c = false
  end.

(** The stored addresses are in normal form and pairwise distinct. *)
Definition unique_normalized (t : list WaitlistRow) : Prop :=
  NoDup (map email t) /\ forall row, In row t -> normalized (email row) = email row.

(** What one request may do to the waitlist: nothing, or append the row
    of the submitted address in normal form, which no row held, with a 201. *)
Definition signup_effect (request : Request) (env : Env) (w : World)
    (out : option Response * World) : Prop :=
  waitlist (db (snd out)) = waitlist (db w) \/
  exists fields e,
    json request = Some (JObject fields) /\
    json_get "email" fields = Some (JString e) /\
    ~ known (normalized e) (waitlist (db w)) /\
    fst out = Some response_201 /\
    waitlist (db (snd out)) =
      waitlist (db w) ++ [{| id := nanoid env; email := normalized e |}].

(** The handler answers 400 to every well-formed address whose domain
    differs only by letter case from one the allow-list accepts. *)
Definition rejects_case_variants (handler : Request -> Async Response) : Prop :=
  forall e d,
    Waitlist.zod3_email e = true -> domain_of e = Some d ->
    case_variant_of_allowed d ->
    option_map status
      (fst (settle (handler (signup "203.0.113.7" e) (at_time 0) (boot empty_world))))
    = Some 400.


(** ** Worlds and requests used as examples *)

(** A world in which the client 203.0.113.7 has used up its three
    requests in both limiters and ada@gmail.com is on the waitlist. *)
Definition throttled_world : World :=
  {| rateLimitStore := <["203.0.113.7" := {| count := 3; resetTime := 60000 |}]> ∅;
     db := {| rate_limit_attempts :=
                [{| identifier := "203.0.113.7"; attempts := 3; expiresAt := 120000 |}];
              waitlist := [{| id := "id0"; email := "ada@gmail.com" |}] |} |}.

(** The same waitlist with both limiters empty. *)
Definition listed_world : World :=
  {| rateLimitStore := ∅;
     db := {| rate_limit_attempts := [];
              waitlist := [{| id := "id0"; email := "ada@gmail.com" |}] |} |}.

(** A request whose body is not JSON. *)
Definition garbled (ip_ : string) : Request :=
  {| url := {| origin := "https://nimbus.example"; path := "/api/waitlist/join";
               search := "" |};
     ip := None;
     headers := [("x-forwarded-for", ip_)];
     json := None |}.

(** An environment in which every statement rejects. *)
Definition database_down (t : Z) : Env :=
  {| now_check := t; now_reply := t; db_fault := fun _ => true; nanoid := "id" |}.

(** A page request. *)
Definition page (p : string) : Request :=
  {| url := {| origin := "https://nimbus.example"; path := p; search := "" |};
     ip := None; headers := []; json := None |}.

(** ** Definitions for further properties of the code *)

(** What the call number [i] (from 0) returns when the stored count was
    [c] before call 0 and no call in between found the window expired;
    [r] is the reset time of that window. *)
Definition window_result (L r c : Z) (i : nat) : RateLimitResult :=
  if c + Z.of_nat i <? L
  then {| allowed := true; remaining := L - (c + Z.of_nat i + 1); res_resetTime := r |}
  else {| allowed := false; remaining := 0; res_resetTime := r |}.

(** Calls of one IP with limit [L] and window [W] at the given times. *)
Definition calls_of (ip : string) (L W : Z) (times : list Z) : list Call :=
  map (fun t => {| call_ip := ip; call_limit := L; call_window := W; call_now := t |})
      times.

(** The text has no dot. *)
Definition dotless (s : string) : bool :=
  all_chars (fun c => negb (Ascii.eqb c ".")) s.

(** The domains the refinement lets through: an allowed domain, or one
    label (possibly empty) followed by a dot and an allowed domain. *)
Definition accepted_domain (d : string) : Prop :=
  exists a, In a Waitlist.ALLOWED_DOMAINS /\
            (d = a \/ exists sub, dotless sub = true /\ d = sub +:+ "." +:+ a).

(** The request carries neither of the two address headers, or carries
    them empty. *)
Definition unaddressed (request : Request) : Prop :=
  truthy (headers_get "x-forwarded-for" (headers request)) = false /\
  truthy (headers_get "x-real-ip" (headers request)) = false.

(** A 429 among the responses announces a wait of at most [n] seconds. *)
Definition wait_at_most (n : Z) (a : option Response) : Prop :=
  forall r, a = Some r -> status r = 429 ->
            exists ra, retryAfter (body r) = Some ra /\ ra <= n.

(** The clock readings of the requests do not go back: the readings of the
    limiter are in order, and each reply reads the clock after its limiter. *)
Definition clock_ordered (reqs : list (Request * Env)) : Prop :=
  chronological (map (fun p => now_check (snd p)) reqs) /\
  Forall (fun p => now_check (snd p) <= now_reply (snd p)) reqs.

(** No reset time in the map lies after [B]. *)
Definition resets_by (B : Z) (store : gmap string RateLimitRecord) : Prop :=
  forall ip rec, store !! ip = Some rec -> resetTime rec <= B.

(** No expiry in the table lies after [B]. *)
Definition expiries_by (B : Z) (t : list RateLimitAttempt) : Prop :=
  forall row, In row t -> expiresAt row <= B.

(** The limiter read as a function of the entry of its IP: what it
    returns and the entry it leaves. *)
Definition entry_step (L W now : Z) (o : option RateLimitRecord)
  : RateLimitResult * RateLimitRecord :=
  let fresh := ({| allowed := true; remaining := L - 1; res_resetTime := now + W |},
                {| count := 1; resetTime := now + W |}) in
  match o with
  | None => fresh
  | Some rec =>
      if now >? resetTime rec then fresh
      else if count rec >=? L then
        ({| allowed := false; remaining := 0; res_resetTime := resetTime rec |}, rec)
      else
        ({| allowed := true; remaining := L - (count rec + 1);
            res_resetTime := resetTime rec |},
         {| count := count rec + 1; resetTime := resetTime rec |})
  end.

(** The machine an awaited computation ends in, resolved or rejected. *)
Definition final {A} (o : Outcome A) : Machine :=
  match o with Resolved _ m | Rejected m => m end.

(** ** The embedding on small inputs *)

Example split_at_sign : split "@" "user@Gmail.com" = ["user"; "Gmail.com"].
Proof. reflexivity. Qed.

Example split_empty : split "@" "" = [""].
Proof. reflexivity. Qed.

Example normalized_address : normalized "  Ada@Gmail.com " = "ada@gmail.com".
Proof. reflexivity. Qed.

Example refine_email_cases :
  map Waitlist.refine_email
      ["user@gmail.com"; "user@Gmail.com"; "user@Mail.gmail.com";
       "user@a.b.gmail.com"; "user@x.proton.me"; "user"; "user@"; "user@xgmail.com"]
  = [true; false; true; false; true; false; false; false].
Proof. reflexivity. Qed.

Example ceil_div_cases :
  map (fun a => ceil_div a 1000) [1500; 1000; 1; 0; -500; -1500] = [2; 1; 1; 0; 0; -1].
Proof. reflexivity. Qed.

Example window_of_one_minute :
  decisions (fst (run_mem (as_invoked "203.0.113.7" 60000 [0; 1; 2; 3; 60000; 60001]) ∅))
  = [true; true; true; false; false; true].
Proof. vm_compute. reflexivity. Qed.

Example client_ip_fallback :
  map client_ip [signup "203.0.113.7" "a@gmail.com"; page "/"; signup "" "a@gmail.com"]
  = ["203.0.113.7"; "anonymous"; "anonymous"].
Proof. reflexivity. Qed.

(** ** The table against the map *)

Section Tables.

Implicit Types (t : list RateLimitAttempt) (ip : string).

Lemma row_of_cons ip r t :
  row_of ip (r :: t) = if decide (identifier r = ip) then Some r else row_of ip t.
Proof. unfold row_of. rewrite filter_cons. destruct (decide _); reflexivity. Qed.

Lemma select_attempt_rows ip d :
  fst (DbBacked.select_attempt ip d) =
  match row_of ip (rate_limit_attempts d) with Some r => [r] | None => [] end.
Proof.
  unfold DbBacked.select_attempt, row_of. simpl.
  destruct (filter _ _); reflexivity.
Qed.

Lemma row_of_identifier ip t r : row_of ip t = Some r -> identifier r = ip.
Proof.
  induction t as [|x t IH]; [discriminate|].
  rewrite row_of_cons. destruct (decide _); [congruence | exact IH].
Qed.

Lemma row_of_In ip t r : row_of ip t = Some r -> In r t.
Proof.
  induction t as [|x t IH]; [discriminate|].
  rewrite row_of_cons. destruct (decide _); intros H.
  - left. congruence.
  - right. auto.
Qed.


Lemma existsb_row_of ip t :
  existsb (fun r => bool_decide (identifier r = ip)) t = bool_decide (is_Some (row_of ip t)).
Proof.
  induction t as [|x t IH]; simpl.
  - reflexivity.
  - rewrite row_of_cons, IH. destruct (decide (identifier x = ip)) as [e|n].
    + rewrite (bool_decide_eq_true_2 _ e). simpl.
      first [reflexivity | symmetry; apply bool_decide_eq_true_2; eauto].
    + rewrite (bool_decide_eq_false_2 _ n). reflexivity.
Qed.

(** Rewriting the rows of one identifier, the identifier kept. *)
Lemma row_of_rewrite (g : RateLimitAttempt -> RateLimitAttempt) ip ip' t :
  (forall r, identifier (g r) = identifier r) ->
  row_of ip' (map (fun r => if bool_decide (identifier r = ip) then g r else r) t) =
  if decide (ip' = ip) then g <$> row_of ip t else row_of ip' t.
Proof.
  intros Hg. induction t as [|x t IH]; simpl.
  - destruct (decide _); reflexivity.
  - rewrite !row_of_cons, IH. clear IH.
    destruct (decide (identifier x = ip)) as [e|n].
    + rewrite (bool_decide_eq_true_2 _ e), Hg.
      destruct (decide (ip' = ip)) as [->|n'].
      * rewrite decide_True by exact e. reflexivity.
      * rewrite !decide_False by congruence. reflexivity.
    + rewrite (bool_decide_eq_false_2 _ n).
      destruct (decide (ip' = ip)) as [->|n'].
      * rewrite decide_False by exact n. reflexivity.
      * reflexivity.
Qed.

Lemma map_identifier_rewrite (g : RateLimitAttempt -> RateLimitAttempt) ip t :
  (forall r, identifier (g r) = identifier r) ->
  map identifier (map (fun r => if bool_decide (identifier r = ip) then g r else r) t)
  = map identifier t.
Proof.
  intros Hg. rewrite map_map. apply map_ext. intros r.
  destruct (bool_decide _); [apply Hg | reflexivity].
Qed.

Lemma row_of_snoc ip t r :
  row_of ip (t ++ [r]) =
  match row_of ip t with
  | Some x => Some x
  | None => if decide (identifier r = ip) then Some r else None
  end.
Proof.
  induction t as [|x t IH]; simpl.
  - rewrite row_of_cons. reflexivity.
  - rewrite !row_of_cons, IH. destruct (decide (identifier x = ip)); reflexivity.
Qed.

Lemma row_of_None_notin ip t : row_of ip t = None -> ~ In ip (map identifier t).
Proof.
  induction t as [|x t IH]; simpl; [tauto|].
  rewrite row_of_cons. destruct (decide _); [discriminate|].
  intros H [e|Hin]; [contradiction | exact (IH H Hin)].
Qed.

End Tables.

Lemma agree_upsert s t ip e :
  agree s t ->
  agree (<[ip := {| count := 1; resetTime := e |}]> s)
        (rate_limit_attempts (snd (DbBacked.upsert_attempt ip e
           {| rate_limit_attempts := t; waitlist := [] |}))).
Proof.
  intros [Hnd Hag]. unfold DbBacked.upsert_attempt. cbn [snd rate_limit_attempts with_attempts].
  rewrite existsb_row_of.
  destruct (row_of ip t) as [r|] eqn:Hr.
  - rewrite bool_decide_eq_true_2 by eauto. split.
    + rewrite (map_identifier_rewrite
                 (fun r => {| identifier := identifier r; attempts := 1; expiresAt := e |}));
        auto.
    + intros ip'.
      rewrite (row_of_rewrite
                 (fun r => {| identifier := identifier r; attempts := 1; expiresAt := e |}))
        by auto.
      destruct (decide (ip' = ip)) as [->|n].
      * rewrite lookup_insert_eq, Hr. reflexivity.
      * rewrite lookup_insert_ne by congruence. apply Hag.
  - rewrite bool_decide_eq_false_2 by (intros [? ?]; discriminate). split.
    + rewrite map_app. simpl. apply NoDup_app. split; [exact Hnd|]. split.
      * intros x Hx Hx'. apply list_elem_of_In in Hx.
        apply list_elem_of_singleton in Hx'. subst x.
        exact (row_of_None_notin _ _ Hr Hx).
      * apply NoDup_singleton.
    + intros ip'. rewrite row_of_snoc. simpl.
      destruct (decide (ip' = ip)) as [->|n].
      * rewrite lookup_insert_eq, Hr. rewrite decide_True by reflexivity. reflexivity.
      * rewrite lookup_insert_ne by congruence. rewrite Hag.
        destruct (row_of ip' t); [reflexivity|].
        rewrite decide_False by congruence. reflexivity.
Qed.

Lemma agree_increment s t ip r :
  agree s t -> row_of ip t = Some r ->
  agree (<[ip := {| count := attempts r + 1; resetTime := expiresAt r |}]> s)
        (rate_limit_attempts (snd (DbBacked.increment_attempt ip
           {| rate_limit_attempts := t; waitlist := [] |}))).
Proof.
  intros [Hnd Hag] Hr. unfold DbBacked.increment_attempt.
  cbn [snd rate_limit_attempts with_attempts]. split.
  - rewrite (map_identifier_rewrite
               (fun r => {| identifier := identifier r; attempts := attempts r + 1;
                            expiresAt := expiresAt r |})); auto.
  - intros ip'.
    rewrite (row_of_rewrite
               (fun r => {| identifier := identifier r; attempts := attempts r + 1;
                            expiresAt := expiresAt r |})) by auto.
    destruct (decide (ip' = ip)) as [->|n].
    + rewrite lookup_insert_eq, Hr. reflexivity.
    + rewrite lookup_insert_ne by congruence. apply Hag.
Qed.

(** One call: without faults the database-backed limiter returns what the
    in-memory one returns, and the table keeps holding what the map holds. *)
Lemma checkRateLimitDB_sim ip L W now env m s :
  (forall n, db_fault env n = false) ->
  agree s (rate_limit_attempts (db (world m))) ->
  exists m',
    DbBacked.checkRateLimitDB ip L W now env m
      = Resolved (fst (InMemory.checkRateLimit ip L W now s)) m' /\
    agree (snd (InMemory.checkRateLimit ip L W now s))
          (rate_limit_attempts (db (world m'))) /\
    waitlist (db (world m')) = waitlist (db (world m)) /\
    rateLimitStore (world m') = rateLimitStore (world m).
Proof.
  intros Hq Hag.
  destruct m as [[store [t wl]] n ev]. cbn [world db rate_limit_attempts] in Hag.
  pose proof (proj2 Hag ip) as Hip.
  unfold DbBacked.checkRateLimitDB, InMemory.checkRateLimit, bind, query, ret.
  cbn [world db issued events]. rewrite !Hq.
  pose proof (select_attempt_rows ip {| rate_limit_attempts := t; waitlist := wl |}) as Hsel.
  unfold DbBacked.select_attempt in *. cbn [fst snd rate_limit_attempts] in *.
  rewrite Hsel, Hip. clear Hsel.
  destruct (row_of ip t) as [r|] eqn:Hr; cbn [fmap option_fmap option_map as_record count resetTime].
  - replace (expiresAt r <? now) with (now >? expiresAt r)
      by (rewrite Z.gtb_ltb; reflexivity).
    destruct (now >? expiresAt r).
    + rewrite Hq. eexists. split; [reflexivity|]. cbn.
      split; [|auto]. apply (agree_upsert s t ip (now + W) Hag).
    + destruct (attempts r >=? L).
      * eexists. split; [reflexivity|]. cbn. auto.
      * rewrite Hq. eexists. split; [reflexivity|]. cbn.
        split; [|auto]. apply (agree_increment s t ip r Hag Hr).
  - rewrite Hq. eexists. split; [reflexivity|]. cbn.
    split; [|auto]. apply (agree_upsert s t ip (now + W) Hag).
Qed.

(** ** Runs of the two limiters *)

Lemma run_db_sim calls : forall env m s,
  (forall n, db_fault env n = false) ->
  agree s (rate_limit_attempts (db (world m))) ->
  exists m',
    run_db calls env m = Resolved (fst (run_mem calls s)) m' /\
    agree (snd (run_mem calls s)) (rate_limit_attempts (db (world m'))) /\
    waitlist (db (world m')) = waitlist (db (world m)) /\
    rateLimitStore (world m') = rateLimitStore (world m).
Proof.
  induction calls as [|c rest IH]; intros env m s Hq Hag; simpl.
  - exists m. auto.
  - destruct (checkRateLimitDB_sim (call_ip c) (call_limit c) (call_window c)
                (call_now c) env m s Hq Hag) as (m1 & E1 & A1 & W1 & S1).
    unfold bind at 1. rewrite E1.
    destruct (InMemory.checkRateLimit _ _ _ _ s) as [r s1]. simpl in *.
    destruct (IH env m1 s1 Hq A1) as (m2 & E2 & A2 & W2 & S2).
    unfold bind at 1. rewrite E2.
    destruct (run_mem rest s1) as [h s2]. simpl in *.
    exists m2. unfold ret. repeat split; try apply A2; congruence.
Qed.







(** The three ways [checkRateLimit] can go. *)
Lemma checkRateLimit_cases ip L W now (store : gmap string RateLimitRecord) :
  ((store !! ip = None \/ exists rec, store !! ip = Some rec /\ now > resetTime rec) /\
   InMemory.checkRateLimit ip L W now store =
   ({| allowed := true; remaining := L - 1; res_resetTime := now + W |},
    <[ip := {| count := 1; resetTime := now + W |}]> store))
  \/
  (exists rec, store !! ip = Some rec /\ now <= resetTime rec /\ L <= count rec /\
   InMemory.checkRateLimit ip L W now store =
   ({| allowed := false; remaining := 0; res_resetTime := resetTime rec |}, store))
  \/
  (exists rec, store !! ip = Some rec /\ now <= resetTime rec /\ count rec < L /\
   InMemory.checkRateLimit ip L W now store =
   ({| allowed := true; remaining := L - (count rec + 1);
       res_resetTime := resetTime rec |},
    <[ip := {| count := count rec + 1; resetTime := resetTime rec |}]> store)).
Proof.
  unfold InMemory.checkRateLimit.
  destruct (store !! ip) as [rec|] eqn:E; [|left; auto].
  destruct (now >? resetTime rec) eqn:Hexp.
  - left. split; [|reflexivity]. right. exists rec. split; [reflexivity|].
    apply Z.gtb_lt in Hexp. lia.
  - assert (now <= resetTime rec) by (rewrite Z.gtb_ltb in Hexp; apply Z.ltb_ge in Hexp; lia).
    destruct (count rec >=? L) eqn:Hc.
    + right. left. exists rec. repeat split; auto.
      rewrite Z.geb_leb in Hc. apply Z.leb_le in Hc. exact Hc.
    + right. right. exists rec. repeat split; auto.
      rewrite Z.geb_leb in Hc. apply Z.leb_gt in Hc. exact Hc.
Qed.

Lemma checkRateLimit_other ip ip' L W now (store : gmap string RateLimitRecord) :
  ip' <> ip ->
  snd (InMemory.checkRateLimit ip L W now store) !! ip' = store !! ip'.
Proof.
  intros Hne.
  destruct (checkRateLimit_cases ip L W now store)
    as [[_ ->]|[(rec & _ & _ & _ & ->)|(rec & _ & _ & _ & ->)]]; simpl;
    rewrite ?lookup_insert_ne by congruence; reflexivity.
Qed.








Lemma agree_empty : agree ∅ [].
Proof. split; [constructor|]. intros ip. rewrite lookup_empty. reflexivity. Qed.

(** A denied call of the in-memory limiter leaves the map as it was. *)
Lemma checkRateLimit_denied ip L W now (store : gmap string RateLimitRecord) :
  allowed (fst (InMemory.checkRateLimit ip L W now store)) = false ->
  snd (InMemory.checkRateLimit ip L W now store) = store /\
  exists rec, store !! ip = Some rec /\ now <= resetTime rec /\ L <= count rec /\
              fst (InMemory.checkRateLimit ip L W now store) =
              {| allowed := false; remaining := 0; res_resetTime := resetTime rec |}.
Proof.
  destruct (checkRateLimit_cases ip L W now store)
    as [[_ ->]|[(r0 & Hst & Hle & Hfull & ->)|(r0 & _ & _ & _ & ->)]]; cbn [fst snd allowed];
    try discriminate.
  intros _. split; [reflexivity|]. exists r0. auto.
Qed.

(** A denied call of the database-backed limiter issued one SELECT and
    left the world as it was. *)
Lemma checkRateLimitDB_denied ip L W now env m r m' :
  DbBacked.checkRateLimitDB ip L W now env m = Resolved r m' ->
  allowed r = false ->
  world m' = world m /\ issued m' = S (issued m) /\
  events m' = events m ++ [EvQuery SelectAttempt] /\
  exists row, row_of ip (rate_limit_attempts (db (world m))) = Some row /\
              now <= expiresAt row /\ L <= attempts row /\
              r = {| allowed := false; remaining := 0; res_resetTime := expiresAt row |}.
Proof.
  destruct m as [[store [t wl]] n ev].
  unfold DbBacked.checkRateLimitDB, bind, query, ret. cbn [world db issued events].
  destruct (db_fault env n); [discriminate|].
  pose proof (select_attempt_rows ip {| rate_limit_attempts := t; waitlist := wl |}) as Hsel.
  unfold DbBacked.select_attempt in *. cbn [fst snd rate_limit_attempts] in *.
  rewrite Hsel. clear Hsel.
  destruct (row_of ip t) as [row|] eqn:Hr; cbn [issued world db with_db events].
  - destruct (expiresAt row <? now) eqn:Hexp.
    + cbn. destruct (db_fault env (S n)); [discriminate|]. intros [= <- <-]. discriminate.
    + destruct (attempts row >=? L) eqn:Hc.
      * intros [= <- <-] _. cbn. repeat split. exists row.
        apply Z.ltb_ge in Hexp. rewrite Z.geb_leb in Hc. apply Z.leb_le in Hc. auto.
      * cbn. destruct (db_fault env (S n)); [discriminate|]. intros [= <- <-]. discriminate.
  - cbn. destruct (db_fault env (S n)); [discriminate|]. intros [= <- <-]. discriminate.
Qed.


(** The first call of a window is allowed without the limit being
    consulted: at a limit of 0, which no call site passes, the bound would
    not hold, so it is stated for limits of at least 1. *)
Lemma zero_limit_still_allows_a_call : ~ AdmissionBound 0 60000.
Proof.
  intros H. specialize (H [("203.0.113.7", 0)]).
  assert (Hs : chronological (map snd [("203.0.113.7", 0)])) by repeat constructor.
  specialize (H Hs). cbn [uniform map run_mem fst snd call_ip call_limit call_window call_now] in H.
  unfold InMemory.checkRateLimit in H. rewrite lookup_empty in H.
  destruct H as (Hwin & _).
  specialize (Hwin "203.0.113.7" 60000).
  assert (Hw : window_of "203.0.113.7" 60000
            [({| call_ip := "203.0.113.7"; call_limit := 0; call_window := 60000; call_now := 0 |},
              {| allowed := true; remaining := 0 - 1; res_resetTime := 0 + 60000 |})]).
  { eexists _, _. split; [left; reflexivity|]. split; reflexivity. }
  specialize (Hwin Hw). vm_compute in Hwin. apply Hwin. reflexivity.
Qed.

(** ** The clean-up timer *)

Lemma cleanup_lookup now (store : gmap string RateLimitRecord) ip :
  InMemory.cleanup now store !! ip =
  match store !! ip with
  | Some rec => if now >? resetTime rec then None else Some rec
  | None => None
  end.
Proof.
  unfold InMemory.cleanup.
  destruct (store !! ip) as [rec|] eqn:E.
  - destruct (now >? resetTime rec) eqn:Hexp.
    + apply map_lookup_filter_None. right. intros x Hx. simpl.
      rewrite E in Hx. injection Hx as <-. apply Z.gtb_lt in Hexp. lia.
    + apply map_lookup_filter_Some. split; [exact E|]. simpl.
      rewrite Z.gtb_ltb in Hexp. apply Z.ltb_ge in Hexp. lia.
  - apply map_lookup_filter_None. left. exact E.
Qed.

Lemma swept_mono T T' s1 s2 : T <= T' -> swept T s1 s2 -> swept T' s1 s2.
Proof.
  intros Hle H ip. destruct (H ip) as [e|(e & rec & Hs & Hlt)]; [left; exact e|].
  right. split; [exact e|]. exists rec. split; [exact Hs | lia].
Qed.

Lemma swept_cleanup T now s1 s2 :
  T <= now -> swept T s1 s2 -> swept now (InMemory.cleanup now s1) s2.
Proof.
  intros Hle H ip. rewrite cleanup_lookup.
  destruct (H ip) as [e|(e & rec & Hs & Hlt)].
  - rewrite e. destruct (s2 !! ip) as [rec|] eqn:E; [|left; reflexivity].
    destruct (now >? resetTime rec) eqn:Hexp; [|left; reflexivity].
    right. split; [reflexivity|]. exists rec. split; [reflexivity|].
    apply Z.gtb_lt in Hexp. lia.
  - rewrite e. right. split; [reflexivity|]. exists rec. split; [exact Hs | lia].
Qed.

Lemma swept_check T s1 s2 ip L W now :
  T <= now -> swept T s1 s2 ->
  fst (InMemory.checkRateLimit ip L W now s1) = fst (InMemory.checkRateLimit ip L W now s2) /\
  swept T (snd (InMemory.checkRateLimit ip L W now s1))
          (snd (InMemory.checkRateLimit ip L W now s2)).
Proof.
  intros Hle H. unfold InMemory.checkRateLimit.
  destruct (H ip) as [e|(e & rec & Hs & Hlt)].
  - rewrite e. destruct (s2 !! ip) as [rec|] eqn:E2.
    + destruct (now >? resetTime rec); [|destruct (count rec >=? L)]; cbn [fst snd];
        (split; [reflexivity|]); intros k;
        (destruct (decide (k = ip)) as [->|Hk];
         [left; rewrite ?lookup_insert_eq; congruence
         |rewrite ?lookup_insert_ne by congruence; apply H]).
    + cbn [fst snd]. split; [reflexivity|]. intros k.
      destruct (decide (k = ip)) as [->|Hk];
        [left; rewrite !lookup_insert_eq; reflexivity
        |rewrite !lookup_insert_ne by congruence; apply H].
  - rewrite e, Hs.
    replace (now >? resetTime rec) with true by (symmetry; apply Z.gtb_lt; lia).
    cbn [fst snd]. split; [reflexivity|]. intros k.
    destruct (decide (k = ip)) as [->|Hk];
      [left; rewrite !lookup_insert_eq; reflexivity
      |rewrite !lookup_insert_ne by congruence; apply H].
Qed.

Lemma run_ticks_swept ticks : forall T s1 s2,
  swept T s1 s2 ->
  Forall (Z.le T) (map tick_time ticks) ->
  chronological (map tick_time ticks) ->
  fst (run_ticks ticks s1) = fst (run_mem (checks ticks) s2).
Proof.
  induction ticks as [|[c|now] rest IH]; intros T s1 s2 Hsw Hlow Hs; simpl in *.
  - reflexivity.
  - apply Forall_cons in Hlow as [Hc Hlow].
    apply StronglySorted_cons in Hs as [_ Hs].
    destruct (swept_check T s1 s2 (call_ip c) (call_limit c) (call_window c)
                (call_now c) Hc Hsw) as [Hres Hsw'].
    destruct (InMemory.checkRateLimit _ _ _ _ s1) as [r1 s1'].
    destruct (InMemory.checkRateLimit _ _ _ _ s2) as [r2 s2'].
    simpl in Hres, Hsw'. subst r2.
    specialize (IH T s1' s2' Hsw' Hlow Hs).
    destruct (run_ticks rest s1') as [h1 s1''].
    destruct (run_mem (checks rest) s2') as [h2 s2'']. simpl in *. congruence.
  - apply Forall_cons in Hlow as [Hc Hlow].
    apply StronglySorted_cons in Hs as [Hle Hs].
    apply (IH now).
    + apply (swept_cleanup T); assumption.
    + exact Hle.
    + exact Hs.
Qed.

Lemma swept_refl T s : swept T s s.
Proof. intros ip. left. reflexivity. Qed.

(** C4: a call that finds no record for its IP, or an expired one, is
    allowed and starts a new window (count 1, expiry now + windowMs,
    remaining limit - 1), so an expired record never denies; the clean-up
    deletes exactly the entries with now > resetTime; and in any
    chronological interleaving of calls and clean-ups the calls return what
    they return with the clean-ups left out. *)
Theorem lazy_expiry_on_access :
  (forall ip L W now (store : gmap string RateLimitRecord),
     (store !! ip = None \/ exists rec, store !! ip = Some rec /\ now > resetTime rec) ->
     InMemory.checkRateLimit ip L W now store =
     ({| allowed := true; remaining := L - 1; res_resetTime := now + W |},
      <[ip := {| count := 1; resetTime := now + W |}]> store)) /\
  (forall now (store : gmap string RateLimitRecord) ip,
     InMemory.cleanup now store !! ip =
     match store !! ip with
     | Some rec => if now >? resetTime rec then None else Some rec
     | None => None
     end) /\
  (forall ticks (store : gmap string RateLimitRecord),
     chronological (map tick_time ticks) ->
     fst (run_ticks ticks store) = fst (run_mem (checks ticks) store)).
Proof.
  split; [|split].
  - intros ip L W now store Hst.
    destruct (checkRateLimit_cases ip L W now store)
      as [[_ E]|[(rec & Hs & Hle & _)|(rec & Hs & Hle & _)]]; [exact E| |];
      destruct Hst as [Hn|(rec' & Hs' & Hexp)]; try congruence;
      rewrite Hs in Hs'; injection Hs' as <-; lia.
  - intros now store ip. apply cleanup_lookup.
  - intros ticks store Hs. destruct ticks as [|t0 rest]; [reflexivity|].
    apply (run_ticks_swept (t0 :: rest) (tick_time t0)); [apply swept_refl| |exact Hs].
    simpl. constructor; [lia|].
    simpl in Hs. apply StronglySorted_cons in Hs as [Hle _]. exact Hle.
Qed.

(** ** The two limiters compared *)

(** C1: as their POST handlers invoke them (limit 3, window 60000 ms in
    memory; limit 3, window 120000 ms on the database) the two limiters
    decide differently on a timed sequence of requests of one IP; called
    with equal arguments at equal clock readings from empty stores they
    return the same results for every sequence of calls, and the table ends
    up holding what the map holds. *)
Theorem limiters_differ_as_invoked_and_agree_on_equal_calls :
  (exists ip times hdb m,
     run_db (as_invoked ip 120000 times) quiet (boot empty_world) = Resolved hdb m /\
     decisions (fst (run_mem (as_invoked ip 60000 times) ∅)) <> decisions hdb) /\
  (let reqs := map (fun t => (signup "203.0.113.7" "ada@gmail.com", at_time t))
                   [0; 1; 2; 70000] in
   statuses (fst (serve (InMemory.POST Waitlist.zod3_email) reqs empty_world))
     = [Some 201; Some 400; Some 400; Some 400] /\
   statuses (fst (serve (DbBacked.POST Waitlist.zod3_email) reqs empty_world))
     = [Some 201; Some 400; Some 400; Some 429]) /\
  (forall calls, exists m,
     run_db calls quiet (boot empty_world) = Resolved (fst (run_mem calls ∅)) m /\
     agree (snd (run_mem calls ∅)) (rate_limit_attempts (db (world m)))).
Proof.
  split; [|split].
  - exists "203.0.113.7", [0; 1; 2; 70000]. eexists _, _. split.
    + vm_compute. reflexivity.
    + vm_compute. discriminate.
  - split; vm_compute; reflexivity.
  - intros calls.
    destruct (run_db_sim calls quiet (boot empty_world) ∅) as (m & Hrun & Hag & _);
      [reflexivity | apply agree_empty |].
    exists m. split; assumption.
Qed.

Lemma checkRateLimitDB_row ip L W now env m1 m2 :
  issued m1 = issued m2 ->
  row_of ip (rate_limit_attempts (db (world m1))) =
  row_of ip (rate_limit_attempts (db (world m2))) ->
  verdict (DbBacked.checkRateLimitDB ip L W now env m1) =
  verdict (DbBacked.checkRateLimitDB ip L W now env m2).
Proof.
  destruct m1 as [[s1 [t1 w1]] n1 e1], m2 as [[s2 [t2 w2]] n2 e2].
  cbn [issued world db rate_limit_attempts]. intros <- Hrow.
  unfold DbBacked.checkRateLimitDB, bind, query, ret. cbn [world db issued events].
  destruct (db_fault env n1); [reflexivity|].
  pose proof (select_attempt_rows ip {| rate_limit_attempts := t1; waitlist := w1 |}) as Hs1.
  pose proof (select_attempt_rows ip {| rate_limit_attempts := t2; waitlist := w2 |}) as Hs2.
  unfold DbBacked.select_attempt in *. cbn [fst snd rate_limit_attempts] in *.
  rewrite Hs1, Hs2, <- Hrow. clear Hs1 Hs2.
  destruct (row_of ip t1) as [row|]; cbn [issued world db with_db events].
  - destruct (expiresAt row <? now).
    + cbn. destruct (db_fault env (S n1)); reflexivity.
    + destruct (attempts row >=? L); [reflexivity|].
      cbn. destruct (db_fault env (S n1)); reflexivity.
  - cbn. destruct (db_fault env (S n1)); reflexivity.
Qed.

Lemma run_mem_other calls ip :
  Forall (fun c => call_ip c <> ip) calls ->
  forall s, snd (run_mem calls s) !! ip = s !! ip.
Proof.
  induction 1 as [|c calls Hc _ IH]; intros s; [reflexivity|].
  cbn [run_mem].
  pose proof (checkRateLimit_other (call_ip c) ip (call_limit c) (call_window c)
                (call_now c) s ltac:(congruence)) as Hs.
  destruct (InMemory.checkRateLimit _ _ _ _ s) as [r s1]. cbn [snd] in Hs.
  specialize (IH s1). destruct (run_mem calls s1) as [h s2]. cbn [snd] in *.
  congruence.
Qed.

(** C5: the map of the in-memory limiter is empty after a restart, so the
    first call of every IP is then allowed whatever was denied before, also
    when calls of other IPs come in between; the decision of
    checkRateLimitDB is a function of the stored row of the IP alone, which
    a restart leaves in place. *)
Theorem restart_forgets_the_map_and_keeps_the_table :
  (forall w ip L W now,
     rateLimitStore (restart w) = ∅ /\
     allowed (fst (InMemory.checkRateLimit ip L W now (rateLimitStore (restart w)))) = true) /\
  (forall ip L W now env m1 m2,
     issued m1 = issued m2 ->
     row_of ip (rate_limit_attempts (db (world m1))) =
     row_of ip (rate_limit_attempts (db (world m2))) ->
     verdict (DbBacked.checkRateLimitDB ip L W now env m1) =
     verdict (DbBacked.checkRateLimitDB ip L W now env m2)) /\
  (forall w ip L W now env,
     db (restart w) = db w /\
     verdict (DbBacked.checkRateLimitDB ip L W now env (boot (restart w))) =
     verdict (DbBacked.checkRateLimitDB ip L W now env (boot w))) /\
  (let calls := as_invoked "203.0.113.7" 60000 [0; 1; 2; 3] in
   decisions (fst (run_mem calls ∅)) = [true; true; true; false] /\
   allowed (fst (InMemory.checkRateLimit "203.0.113.7" 3 60000 4
                   (rateLimitStore
                      (restart (with_store (snd (run_mem calls ∅)) empty_world)))))
     = true /\
   exists h m,
     run_db calls quiet (boot empty_world) = Resolved h m /\
     decisions h = [true; true; true; false] /\
     option_map allowed
       (verdict (DbBacked.checkRateLimitDB "203.0.113.7" 3 60000 4 quiet
                   (boot (restart (world m))))) = Some false) /\
  (forall w calls ip L W now,
     Forall (fun c => call_ip c <> ip) calls ->
     allowed (fst (InMemory.checkRateLimit ip L W now
                     (snd (run_mem calls (rateLimitStore (restart w)))))) = true).
Proof.
  split; [|split; [|split; [|split]]].
  - intros w ip L W now. split; [reflexivity|].
    unfold restart, with_store. cbn [rateLimitStore].
    unfold InMemory.checkRateLimit. rewrite lookup_empty. reflexivity.
  - intros. apply checkRateLimitDB_row; assumption.
  - intros w ip L W now env. split; [reflexivity|].
    apply checkRateLimitDB_row; reflexivity.
  - split; [vm_compute; reflexivity|]. split; [vm_compute; reflexivity|].
    eexists _, _. split; [vm_compute; reflexivity|].
    split; vm_compute; reflexivity.
  - intros w calls ip L W now Hother.
    pose proof (run_mem_other calls ip Hother (rateLimitStore (restart w))) as Hs.
    unfold InMemory.checkRateLimit. rewrite Hs.
    unfold restart, with_store. cbn [rateLimitStore].
    rewrite lookup_empty. reflexivity.
Qed.

(** ** The signup handler *)

Lemma ceil_div_bounds a b :
  0 < b -> b * (ceil_div a b - 1) < a <= b * ceil_div a b.
Proof.
  intros Hb. unfold ceil_div.
  pose proof (Z.div_mod (- a) b ltac:(lia)) as Hdm.
  pose proof (Z.mod_pos_bound (- a) b Hb) as Hm.
  nia.
Qed.

Lemma select_email_known e d :
  match fst (Waitlist.select_email e d) with
  | Some row => In row (waitlist d) /\ email row = e
  | None => ~ known e (waitlist d)
  end.
Proof.
  unfold Waitlist.select_email. cbn [fst].
  destruct (head (filter _ (waitlist d))) as [row|] eqn:E.
  - apply head_Some_elem_of in E. apply list_elem_of_filter in E as [He Hin].
    split; [apply list_elem_of_In, Hin | exact He].
  - apply head_None in E. intros (row & Hin & He).
    assert (Hf : row ∈ filter (fun r => email r = e) (waitlist d)).
    { apply list_elem_of_filter. split; [exact He | apply list_elem_of_In, Hin]. }
    rewrite E in Hf. apply not_elem_of_nil in Hf. exact Hf.
Qed.

Section Join.

Variable isEmail : string -> bool.
Variable refineMessage : string.
Variable report : list ZodIssue -> ErrorValue.

Lemma join_cases request env m :
  join_outcome isEmail refineMessage report request env m
    (Waitlist.join isEmail refineMessage report request env m).
Proof.
  destruct m as [[store d] n ev].
  unfold Waitlist.join, bind, request_json, emit. cbn [world issued events].
  destruct (json request) as [b|] eqn:Hj; [|apply join_bad_json; auto].
  destruct (Waitlist.safeParse isEmail refineMessage b) as [e|issues] eqn:Hp.
  2:{ unfold ret. eapply join_invalid; eauto. }
  unfold query at 1. cbn [world issued events db].
  destruct (db_fault env n) eqn:Hf1; [eapply join_select_fails; eauto|].
  pose proof (select_email_known (normalized e) d) as Hsel.
  unfold Waitlist.select_email in *. cbn [fst] in Hsel.
  fold (normalized e).
  destruct (head (filter _ (waitlist d))) as [row|].
  - unfold ret. eapply join_duplicate; eauto. exists row. exact Hsel.
  - unfold ask, query. cbn [world issued events db with_db].
    destruct (db_fault env (S n)) eqn:Hf2.
    + eapply join_insert_fails; eauto.
    + unfold ret. cbn. eapply join_inserted; eauto.
Qed.

End Join.

(** ** The two POST handlers *)

Lemma POST_caught_mem isEmail request env m :
  InMemory.POST isEmail request env m = caught (InMemory.POST_try isEmail request env m).
Proof. unfold InMemory.POST, try_catch, caught. destruct (InMemory.POST_try _ _ _ _); reflexivity. Qed.

Lemma POST_caught_db isEmail request env m :
  DbBacked.POST isEmail request env m = caught (DbBacked.POST_try isEmail request env m).
Proof. unfold DbBacked.POST, try_catch, caught. destruct (DbBacked.POST_try _ _ _ _); reflexivity. Qed.

Lemma POST_try_mem isEmail request env m :
  InMemory.POST_try isEmail request env m =
  let r := fst (InMemory.checkRateLimit (client_ip request) 3 60000 (now_check env)
                  (rateLimitStore (world m))) in
  let m1 := {| world := with_store
                 (snd (InMemory.checkRateLimit (client_ip request) 3 60000 (now_check env)
                         (rateLimitStore (world m)))) (world m);
               issued := issued m; events := events m |} in
  if allowed r then
    Waitlist.join isEmail "Email domain or TLD is not allowed" ErrFormat request env m1
  else Resolved (response_429 (ceil_div (res_resetTime r - now_reply env) 1000)) m1.
Proof.
  unfold InMemory.POST_try, bind, ask, on_store.
  destruct (InMemory.checkRateLimit _ _ _ _ _) as [r s]. cbn [fst snd].
  destruct (allowed r); reflexivity.
Qed.

Lemma POST_try_db isEmail request env m :
  DbBacked.POST_try isEmail request env m =
  match DbBacked.checkRateLimitDB (client_ip request) 3 120000 (now_check env) env m with
  | Rejected m1 => Rejected m1
  | Resolved r m1 =>
      if allowed r then
        Waitlist.join isEmail "Invalid email, please try again"
          (fun issues => ErrFirst (head issues)) request env m1
      else Resolved (response_429 (ceil_div (res_resetTime r - now_reply env) 1000)) m1
  end.
Proof.
  unfold DbBacked.POST_try, bind, ask.
  destruct (DbBacked.checkRateLimitDB _ _ _ _ _ _) as [r m1|m1]; [|reflexivity].
  destruct (allowed r); reflexivity.
Qed.

Lemma with_store_same w : with_store (rateLimitStore w) w = w.
Proof. destruct w; reflexivity. Qed.

Lemma join_unsuccessful isEmail msg report request env m r m' :
  Waitlist.join isEmail msg report request env m = Resolved r m' ->
  (status r = 201 /\ success (body r) = true) \/
  (status r = 400 /\ success (body r) = false).
Proof.
  intros E. pose proof (join_cases isEmail msg report request env m) as H.
  rewrite E in H. inversion H; subst; cbn; auto.
Qed.

(** C3: a denied waitlist POST answers 429 with success=false and
    retryAfter the ceiling of the seconds left until the stored window
    resets; the body is not read, no statement other than the limiter's own
    SELECT is issued, and the world (rate-limit record and waitlist
    included) is as before. The middleware answers 429 with Retry-After 300
    when its limiter rejects. *)
Theorem throttled_denial_precedes_all_work :
  (forall isEmail request env m,
     allowed (fst (InMemory.checkRateLimit (client_ip request) 3 60000 (now_check env)
                     (rateLimitStore (world m)))) = false ->
     exists rec resp m',
       rateLimitStore (world m) !! client_ip request = Some rec /\
       InMemory.POST isEmail request env m = Resolved resp m' /\
       status resp = 429 /\ success (body resp) = false /\
       retryAfter (body resp) = Some (ceil_div (resetTime rec - now_reply env) 1000) /\
       1000 * (ceil_div (resetTime rec - now_reply env) 1000 - 1)
         < resetTime rec - now_reply env
         <= 1000 * ceil_div (resetTime rec - now_reply env) 1000 /\
       world m' = world m /\ events m' = events m) /\
  (forall isEmail request env m r m1,
     DbBacked.checkRateLimitDB (client_ip request) 3 120000 (now_check env) env m
       = Resolved r m1 ->
     allowed r = false ->
     exists row resp m',
       row_of (client_ip request) (rate_limit_attempts (db (world m))) = Some row /\
       DbBacked.POST isEmail request env m = Resolved resp m' /\
       status resp = 429 /\ success (body resp) = false /\
       retryAfter (body resp) = Some (ceil_div (expiresAt row - now_reply env) 1000) /\
       1000 * (ceil_div (expiresAt row - now_reply env) 1000 - 1)
         < expiresAt row - now_reply env
         <= 1000 * ceil_div (expiresAt row - now_reply env) 1000 /\
       world m' = world m /\ events m' = events m ++ [EvQuery SelectAttempt]) /\
  (forall getSessionCookie limiter_rejects request,
     startsWith (path (url request)) "/api/waitlist" = true ->
     limiter_rejects 5
       ("waitlist:" +:+ js_or_else (js_or (ip request)
                                      (headers_get "x-forwarded-for" (headers request)))
                                   "anonymous") = true ->
     exists payload headers_,
       Middleware.middleware getSessionCookie limiter_rejects request
         = Middleware.NextResponse_new payload 429 headers_ /\
       headers_get "Retry-After" headers_ = Some "300").
Proof.
  split; [|split].
  - intros isEmail request env m Hden.
    destruct (checkRateLimit_denied _ _ _ _ _ Hden) as (Hsame & rec & Hst & _ & _ & Hres).
    exists rec. rewrite POST_caught_mem, POST_try_mem. cbn zeta.
    rewrite Hden, Hsame, Hres, with_store_same. cbn [res_resetTime caught].
    eexists _, _. split; [exact Hst|]. split; [reflexivity|].
    cbn. repeat split; try apply ceil_div_bounds; try lia.
  - intros isEmail request env m r m1 Hrun Hden.
    destruct (checkRateLimitDB_denied _ _ _ _ _ _ _ _ Hrun Hden)
      as (Hw & _ & Hev & row & Hrow & _ & _ & ->).
    exists row. rewrite POST_caught_db, POST_try_db, Hrun. cbn.
    eexists _, _. split; [exact Hrow|]. split; [reflexivity|].
    cbn. repeat split; try apply ceil_div_bounds; try lia; assumption.
  - intros getSessionCookie limiter_rejects request Hpath Hrej.
    unfold Middleware.middleware. rewrite Hpath, Hrej.
    eexists _, _. split; reflexivity.
Qed.

(** C9: POST always returns a response; whatever is thrown in its try
    block (the body that does not parse, a rejected statement) is answered
    with 500 and {success: false, error: "Internal server error"}; the
    statuses are 201, 400, 429 and 500, and only 201 carries success=true. *)
Theorem POST_never_throws :
  (forall isEmail request env m,
     exists resp m',
       InMemory.POST isEmail request env m = Resolved resp m' /\
       (forall m1, InMemory.POST_try isEmail request env m = Rejected m1 ->
                   resp = response_500 /\ m' = m1) /\
       (status resp <> 201 -> success (body resp) = false) /\
       In (status resp) [201; 400; 429; 500]) /\
  (forall isEmail request env m,
     exists resp m',
       DbBacked.POST isEmail request env m = Resolved resp m' /\
       (forall m1, DbBacked.POST_try isEmail request env m = Rejected m1 ->
                   resp = response_500 /\ m' = m1) /\
       (status resp <> 201 -> success (body resp) = false) /\
       In (status resp) [201; 400; 429; 500]) /\
  (forall isEmail request env m,
     json request = None ->
     allowed (fst (InMemory.checkRateLimit (client_ip request) 3 60000 (now_check env)
                     (rateLimitStore (world m)))) = true ->
     exists m', InMemory.POST isEmail request env m = Resolved response_500 m') /\
  (forall isEmail request env m,
     db_fault env (issued m) = true ->
     exists m', DbBacked.POST isEmail request env m = Resolved response_500 m').
Proof.
  split; [|split; [|split]].
  - intros isEmail request env m. rewrite POST_caught_mem.
    destruct (InMemory.POST_try isEmail request env m) as [r m1|m1] eqn:E; cbn [caught].
    + exists r, m1. split; [reflexivity|]. split; [discriminate|].
      rewrite POST_try_mem in E. cbn zeta in E.
      destruct (allowed _) in E.
      * destruct (join_unsuccessful _ _ _ _ _ _ _ _ E) as [[-> ->]|[-> ->]];
          simpl; split; auto; congruence.
      * injection E as <- _. cbn. split; auto.
    + exists response_500, m1. split; [reflexivity|]. split.
      * intros m2 [= <-]. auto.
      * cbn. split; auto.
  - intros isEmail request env m. rewrite POST_caught_db.
    destruct (DbBacked.POST_try isEmail request env m) as [r m1|m1] eqn:E; cbn [caught].
    + exists r, m1. split; [reflexivity|]. split; [discriminate|].
      rewrite POST_try_db in E.
      destruct (DbBacked.checkRateLimitDB _ _ _ _ _ _) as [r0 m0|m0]; [|discriminate].
      destruct (allowed r0).
      * destruct (join_unsuccessful _ _ _ _ _ _ _ _ E) as [[-> ->]|[-> ->]];
          simpl; split; auto; congruence.
      * injection E as <- _. cbn. split; auto.
    + exists response_500, m1. split; [reflexivity|]. split.
      * intros m2 [= <-]. auto.
      * cbn. split; auto.
  - intros isEmail request env m Hj Hal.
    rewrite POST_caught_mem, POST_try_mem. cbn zeta. rewrite Hal.
    match goal with |- context [Waitlist.join ?a ?b ?c ?d ?e ?f] =>
      pose proof (join_cases a b c d e f) as H end.
    inversion H; try congruence. eexists. reflexivity.
  - intros isEmail request env m Hf.
    rewrite POST_caught_db, POST_try_db.
    unfold DbBacked.checkRateLimitDB, bind, query. rewrite Hf. cbn. eexists. reflexivity.
Qed.

(** ** Lower-casing and trimming *)

Ltac each_char c := destruct c as [[] [] [] [] [] [] [] []]; reflexivity.

Lemma lower_char_idem c : lower_char (lower_char c) = lower_char c.
Proof. each_char c. Qed.

Lemma is_white_lower c : is_white (lower_char c) = is_white c.
Proof. each_char c. Qed.

Lemma is_letter_lower c : is_letter (lower_char c) = is_letter c.
Proof. each_char c. Qed.

Lemma toLowerCase_idem s : toLowerCase (toLowerCase s) = toLowerCase s.
Proof. induction s as [|c r IH]; simpl; [reflexivity|]. rewrite lower_char_idem, IH. reflexivity. Qed.

Lemma toLowerCase_length s : String.length (toLowerCase s) = String.length s.
Proof. induction s as [|c r IH]; simpl; congruence. Qed.

Lemma toLowerCase_empty s : String.eqb (toLowerCase s) "" = String.eqb s "".
Proof. destruct s; reflexivity. Qed.

Lemma trimStart_lower s : trimStart (toLowerCase s) = toLowerCase (trimStart s).
Proof.
  induction s as [|c r IH]; simpl; [reflexivity|].
  rewrite is_white_lower. destruct (is_white c); [exact IH | reflexivity].
Qed.

Lemma trimEnd_lower s : trimEnd (toLowerCase s) = toLowerCase (trimEnd s).
Proof.
  induction s as [|c r IH]; simpl; [reflexivity|].
  rewrite is_white_lower, IH, toLowerCase_empty.
  destruct (is_white c && _); reflexivity.
Qed.

Lemma trim_lower s : trim (toLowerCase s) = toLowerCase (trim s).
Proof. unfold trim. rewrite trimStart_lower, trimEnd_lower. reflexivity. Qed.

Lemma trimStart_clean s : clean_start (trimStart s).
Proof.
  induction s as [|c r IH]; simpl; [exact I|].
  destruct (is_white c) eqn:E; [exact IH | exact E].
Qed.

Lemma trimStart_of_clean s : clean_start s -> trimStart s = s.
Proof. destruct s as [|c r]; simpl; [reflexivity|]. intros ->. reflexivity. Qed.

Lemma trimEnd_clean s : clean_start s -> clean_start (trimEnd s).
Proof.
  destruct s as [|c r]; simpl; [auto|]. intros E. rewrite E. simpl. exact E.
Qed.

Lemma trimEnd_idem s : trimEnd (trimEnd s) = trimEnd s.
Proof.
  induction s as [|c r IH]; simpl; [reflexivity|].
  destruct (is_white c && String.eqb (trimEnd r) "") eqn:E; [reflexivity|].
  simpl. rewrite IH, E. reflexivity.
Qed.

Lemma trim_idem s : trim (trim s) = trim s.
Proof.
  unfold trim.
  rewrite (trimStart_of_clean (trimEnd (trimStart s)))
    by apply trimEnd_clean, trimStart_clean.
  apply trimEnd_idem.
Qed.

Lemma normalized_idem e : normalized (normalized e) = normalized e.
Proof.
  unfold normalized. rewrite trim_lower, trim_idem, <- trim_lower, toLowerCase_idem.
  reflexivity.
Qed.

Lemma tld_ok_lower tld : Waitlist.tld_ok (toLowerCase tld) = Waitlist.tld_ok tld.
Proof.
  unfold Waitlist.tld_ok. rewrite toLowerCase_length. f_equal.
  induction tld as [|c r IH]; simpl; [reflexivity|].
  rewrite is_letter_lower, IH. reflexivity.
Qed.

(** ** Validation *)

Lemma safeParse_accepts isEmail msg b e :
  Waitlist.safeParse isEmail msg b = inl e ->
  exists fields, b = JObject fields /\ json_get "email" fields = Some (JString e) /\
                 isEmail e = true /\ Waitlist.refine_email e = true.
Proof.
  unfold Waitlist.safeParse. destruct b as [| | | | |fields]; try discriminate.
  destruct (json_get "email" fields) as [[| | |s| |]|] eqn:Hg; try discriminate.
  destruct (isEmail s) eqn:E1, (Waitlist.refine_email s) eqn:E2; simpl; try discriminate.
  intros [= <-]. exists fields. auto.
Qed.

Lemma safeParse_valid isEmail msg fields e :
  json_get "email" fields = Some (JString e) ->
  isEmail e = true -> Waitlist.refine_email e = true ->
  Waitlist.safeParse isEmail msg (JObject fields) = inl e.
Proof. intros Hg H1 H2. unfold Waitlist.safeParse. rewrite Hg, H1, H2. reflexivity. Qed.

Lemma safeParse_refused isEmail msg fields e :
  json_get "email" fields = Some (JString e) ->
  Waitlist.refine_email e = false ->
  exists issues, Waitlist.safeParse isEmail msg (JObject fields) = inr issues.
Proof.
  intros Hg H2. unfold Waitlist.safeParse. rewrite Hg, H2.
  destruct (isEmail e); simpl; eexists; reflexivity.
Qed.

Lemma refine_email_needs_allowed e d :
  domain_of e = Some d -> Waitlist.domain_allowed d = false ->
  Waitlist.refine_email e = false.
Proof.
  unfold domain_of, Waitlist.refine_email. intros -> Hd. rewrite Hd. simpl.
  destruct (String.eqb d ""); reflexivity.
Qed.

Lemma checkRateLimitDB_waitlist ip L W now env m :
  match DbBacked.checkRateLimitDB ip L W now env m with
  | Resolved _ m1 | Rejected m1 =>
      waitlist (db (world m1)) = waitlist (db (world m)) /\
      rateLimitStore (world m1) = rateLimitStore (world m)
  end.
Proof.
  destruct m as [[store [t wl]] n ev].
  unfold DbBacked.checkRateLimitDB, bind, query, ret. cbn [world db issued events].
  destruct (db_fault env n); [split; reflexivity|].
  unfold DbBacked.select_attempt. cbn [fst snd rate_limit_attempts].
  destruct (take 1 _) as [|row ?]; cbn [issued world db with_db events].
  - cbn. destruct (db_fault env (S n)); split; reflexivity.
  - destruct (expiresAt row <? now).
    + cbn. destruct (db_fault env (S n)); split; reflexivity.
    + destruct (attempts row >=? L); [split; reflexivity|].
      cbn. destruct (db_fault env (S n)); split; reflexivity.
Qed.

(** ** The waitlist table *)

Lemma join_effect isEmail msg report request env m w :
  waitlist (db (world m)) = waitlist (db w) ->
  signup_effect request env w
    (settle (caught (Waitlist.join isEmail msg report request env m))).
Proof.
  intros Hw. pose proof (join_cases isEmail msg report request env m) as H.
  destruct (Waitlist.join isEmail msg report request env m) as [r m'|m'];
    inversion H; subst; cbn [caught settle];
    try (left; cbn [snd]; congruence).
  right.
  match goal with Hp : Waitlist.safeParse _ _ _ = inl _ |- _ =>
    destruct (safeParse_accepts _ _ _ _ Hp) as (fields & -> & Hg & _) end.
  exists fields, e. cbn [fst snd]. rewrite <- Hw. auto.
Qed.

Lemma POST_effect_mem isEmail request env w :
  signup_effect request env w (settle (InMemory.POST isEmail request env (boot w))).
Proof.
  rewrite POST_caught_mem, POST_try_mem. cbn zeta.
  destruct (allowed _).
  - apply join_effect. reflexivity.
  - left. reflexivity.
Qed.

Lemma POST_effect_db isEmail request env w :
  signup_effect request env w (settle (DbBacked.POST isEmail request env (boot w))).
Proof.
  rewrite POST_caught_db, POST_try_db.
  pose proof (checkRateLimitDB_waitlist (client_ip request) 3 120000 (now_check env)
                env (boot w)) as Hw.
  destruct (DbBacked.checkRateLimitDB _ _ _ _ _ _) as [r m1|m1]; destruct Hw as [Hw _].
  - destruct (allowed r).
    + apply join_effect. exact Hw.
    + left. exact Hw.
  - left. exact Hw.
Qed.

Lemma unique_normalized_effect request env w out :
  signup_effect request env w out ->
  unique_normalized (waitlist (db w)) ->
  unique_normalized (waitlist (db (snd out))).
Proof.
  intros [->|(fields & e & _ & _ & Hnew & _ & ->)] [Hnd Hnorm]; [split; assumption|].
  split.
  - rewrite map_app. simpl. apply NoDup_app. split; [exact Hnd|]. split.
    + intros x Hx Hx'. apply list_elem_of_singleton in Hx'. subst x.
      apply list_elem_of_In, in_map_iff in Hx as (row & He & Hin).
      apply Hnew. exists row. auto.
    + apply NoDup_singleton.
  - intros row Hin. apply in_app_or in Hin as [Hin|[<-|[]]]; [auto|].
    simpl. apply normalized_idem.
Qed.

Lemma serve_unique_normalized handler :
  (forall request env w, signup_effect request env w (settle (handler request env (boot w)))) ->
  forall reqs w,
    unique_normalized (waitlist (db w)) ->
    unique_normalized (waitlist (db (snd (serve handler reqs w)))).
Proof.
  intros Heff. induction reqs as [|[request env] rest IH]; intros w Hw; simpl; [exact Hw|].
  pose proof (unique_normalized_effect _ _ _ _ (Heff request env w) Hw) as H1.
  destruct (settle (handler request env (boot w))) as [a w1]. simpl in H1.
  specialize (IH w1 H1). destruct (serve handler rest w1) as [l w2]. exact IH.
Qed.

Lemma unique_normalized_NoDup t :
  unique_normalized t -> NoDup (map (fun row => normalized (email row)) t).
Proof.
  intros [Hnd Hnorm]. erewrite map_ext_in; [exact Hnd|].
  intros row Hin. apply Hnorm, Hin.
Qed.

Lemma join_duplicate_answer isEmail msg report request env m fields e :
  json request = Some (JObject fields) ->
  json_get "email" fields = Some (JString e) ->
  isEmail e = true -> Waitlist.refine_email e = true ->
  known (normalized e) (waitlist (db (world m))) ->
  db_fault env (issued m) = false ->
  exists m',
    Waitlist.join isEmail msg report request env m =
      Resolved (response_400 (ErrText "This email is already on the waitlist")) m' /\
    world m' = world m.
Proof.
  intros Hj Hg H1 H2 Hk Hf.
  pose proof (safeParse_valid isEmail msg fields e Hg H1 H2) as Hp.
  pose proof (join_cases isEmail msg report request env m) as H.
  destruct (Waitlist.join isEmail msg report request env m) as [r m'|m'];
    inversion H; subst; try congruence;
    try (exfalso; match goal with
                  | Hn : ~ known (normalized ?x) _ |- _ =>
                      assert (x = e) by congruence; subst x; contradiction
                  end).
  exists m'. split; [reflexivity | assumption].
Qed.

(** C7: the only change a waitlist POST makes to the table is to append
    one row whose email is the submitted one lower-cased and trimmed, and
    only when no row has that email yet; a duplicate submission is answered
    400 "This email is already on the waitlist" with the table as before;
    so requests served one after the other keep the stored emails
    normalized and pairwise distinct. *)
Theorem waitlist_emails_normalized_and_unique :
  (forall isEmail request env w,
     signup_effect request env w (settle (InMemory.POST isEmail request env (boot w))) /\
     signup_effect request env w (settle (DbBacked.POST isEmail request env (boot w)))) /\
  (forall isEmail request env w fields e,
     json request = Some (JObject fields) ->
     json_get "email" fields = Some (JString e) ->
     isEmail e = true -> Waitlist.refine_email e = true ->
     known (normalized e) (waitlist (db w)) ->
     (forall n, db_fault env n = false) ->
     (allowed (fst (InMemory.checkRateLimit (client_ip request) 3 60000 (now_check env)
                      (rateLimitStore w))) = true ->
      exists w',
        settle (InMemory.POST isEmail request env (boot w)) =
          (Some (response_400 (ErrText "This email is already on the waitlist")), w') /\
        waitlist (db w') = waitlist (db w)) /\
     (option_map allowed
        (verdict (DbBacked.checkRateLimitDB (client_ip request) 3 120000 (now_check env)
                    env (boot w))) = Some true ->
      exists w',
        settle (DbBacked.POST isEmail request env (boot w)) =
          (Some (response_400 (ErrText "This email is already on the waitlist")), w') /\
        waitlist (db w') = waitlist (db w))) /\
  (forall isEmail reqs w,
     unique_normalized (waitlist (db w)) ->
     unique_normalized (waitlist (db (snd (serve (InMemory.POST isEmail) reqs w)))) /\
     unique_normalized (waitlist (db (snd (serve (DbBacked.POST isEmail) reqs w))))) /\
  (forall isEmail reqs,
     NoDup (map (fun row => normalized (email row))
                (waitlist (db (snd (serve (InMemory.POST isEmail) reqs empty_world))))) /\
     NoDup (map (fun row => normalized (email row))
                (waitlist (db (snd (serve (DbBacked.POST isEmail) reqs empty_world)))))).
Proof.
  assert (Hserve : forall isEmail reqs w,
     unique_normalized (waitlist (db w)) ->
     unique_normalized (waitlist (db (snd (serve (InMemory.POST isEmail) reqs w)))) /\
     unique_normalized (waitlist (db (snd (serve (DbBacked.POST isEmail) reqs w))))).
  { intros isEmail reqs w Hw. split; apply serve_unique_normalized; auto;
      intros; [apply POST_effect_mem | apply POST_effect_db]. }
  split; [|split; [|split]].
  - intros. split; [apply POST_effect_mem | apply POST_effect_db].
  - intros isEmail request env w fields e Hj Hg H1 H2 Hk Hq. split.
    + intros Hal. rewrite POST_caught_mem, POST_try_mem. cbn zeta.
      change (world (boot w)) with w. rewrite Hal.
      match goal with |- context [Waitlist.join ?x1 ?x2 ?x3 ?x4 ?x5 ?x6] =>
        destruct (join_duplicate_answer x1 x2 x3 x4 x5 x6 fields e) as (m' & -> & Hw);
          auto end.
      cbn [caught settle]. eexists. split; [reflexivity|]. rewrite Hw. reflexivity.
    + intros Hal. rewrite POST_caught_db, POST_try_db.
      pose proof (checkRateLimitDB_waitlist (client_ip request) 3 120000 (now_check env)
                    env (boot w)) as Hw1.
      destruct (DbBacked.checkRateLimitDB _ _ _ _ _ _) as [r m1|m1]; [|discriminate].
      destruct Hw1 as [Hw1 _]. simpl in Hal. injection Hal as ->.
      destruct (join_duplicate_answer isEmail "Invalid email, please try again"
                  (fun issues => ErrFirst (head issues)) request env m1 fields e)
        as (m' & -> & Hw); auto.
      { rewrite Hw1. exact Hk. }
      cbn [caught settle]. eexists. split; [reflexivity|]. rewrite Hw. exact Hw1.
  - exact Hserve.
  - intros isEmail reqs.
    destruct (Hserve isEmail reqs empty_world) as [H1 H2].
    { split; [constructor | intros row []]. }
    split; apply unique_normalized_NoDup; assumption.
Qed.

(** ** The allow-list of domains *)

(** C8 as stated fails at "user@Mail.gmail.com": the domain differs from
    mail.gmail.com, a subdomain of gmail.com, only by letter case, yet it
    ends with ".gmail.com" as written and both handlers answer 201. *)
Lemma subdomain_label_case_variant_is_accepted :
  ~ rejects_case_variants (InMemory.POST Waitlist.zod3_email) /\
  ~ rejects_case_variants (DbBacked.POST Waitlist.zod3_email).
Proof.
  assert (Hv : case_variant_of_allowed "Mail.gmail.com").
  { exists "mail.gmail.com". split; [reflexivity|]. split; [discriminate | reflexivity]. }
  split; intros H;
    specialize (H "user@Mail.gmail.com" "Mail.gmail.com" eq_refl eq_refl Hv);
    vm_compute in H; discriminate H.
Qed.

Lemma join_refused isEmail msg report request env m fields e :
  json request = Some (JObject fields) ->
  json_get "email" fields = Some (JString e) ->
  Waitlist.refine_email e = false ->
  exists issues m',
    Waitlist.join isEmail msg report request env m
      = Resolved (response_400 (report issues)) m' /\
    world m' = world m.
Proof.
  intros Hj Hg Hr.
  destruct (safeParse_refused isEmail msg fields e Hg Hr) as [issues Hp].
  pose proof (join_cases isEmail msg report request env m) as H.
  destruct (Waitlist.join isEmail msg report request env m) as [r m'|m'];
    inversion H; subst; try congruence.
  exists issues0, m'. split; [reflexivity | assumption].
Qed.

(** C8 (amended): the allow-list test compares the domain by exact
    equality and endsWith, without lower-casing. Every email whose domain
    does not pass it as written (as "user@Gmail.com", which differs from
    gmail.com only by letter case) is rejected with status 400 and
    success=false once the limiter lets the request through and the body parses,
    whatever the zod email check says; the TLD pattern ignores letter case;
    and a letter-case difference confined to the sub-domain label
    ("user@Mail.gmail.com") is accepted. *)
Theorem domain_allow_list_is_case_sensitive :
  (forall isEmail request env m fields e d,
     json request = Some (JObject fields) ->
     json_get "email" fields = Some (JString e) ->
     domain_of e = Some d ->
     Waitlist.domain_allowed d = false ->
     (allowed (fst (InMemory.checkRateLimit (client_ip request) 3 60000 (now_check env)
                      (rateLimitStore (world m)))) = true ->
      exists resp m',
        InMemory.POST isEmail request env m = Resolved resp m' /\
        status resp = 400 /\ success (body resp) = false /\
        waitlist (db (world m')) = waitlist (db (world m))) /\
     (option_map allowed
        (verdict (DbBacked.checkRateLimitDB (client_ip request) 3 120000 (now_check env)
                    env m)) = Some true ->
      exists resp m',
        DbBacked.POST isEmail request env m = Resolved resp m' /\
        status resp = 400 /\ success (body resp) = false /\
        waitlist (db (world m')) = waitlist (db (world m)))) /\
  (case_variant_of_allowed "Gmail.com" /\ Waitlist.domain_allowed "Gmail.com" = false) /\
  (forall tld, Waitlist.tld_ok (toLowerCase tld) = Waitlist.tld_ok tld) /\
  (case_variant_of_allowed "Mail.gmail.com" /\
   Waitlist.domain_allowed "Mail.gmail.com" = true /\
   statuses (fst (serve (InMemory.POST Waitlist.zod3_email)
                    [(signup "203.0.113.7" "user@Mail.gmail.com", at_time 0)] empty_world))
     = [Some 201] /\
   statuses (fst (serve (DbBacked.POST Waitlist.zod3_email)
                    [(signup "203.0.113.7" "user@Mail.gmail.com", at_time 0)] empty_world))
     = [Some 201]).
Proof.
  split; [|split; [|split]].
  - intros isEmail request env m fields e d Hj Hg Hd Hna.
    pose proof (refine_email_needs_allowed e d Hd Hna) as Hr. split.
    + intros Hal. rewrite POST_caught_mem, POST_try_mem. cbn zeta. rewrite Hal.
      match goal with |- context [Waitlist.join ?x1 ?x2 ?x3 ?x4 ?x5 ?x6] =>
        destruct (join_refused x1 x2 x3 x4 x5 x6 fields e) as (issues & m' & -> & Hw);
          auto end.
      cbn [caught]. eexists _, _. split; [reflexivity|]. rewrite Hw. cbn. auto.
    + intros Hal. rewrite POST_caught_db, POST_try_db.
      pose proof (checkRateLimitDB_waitlist (client_ip request) 3 120000 (now_check env)
                    env m) as Hw1.
      destruct (DbBacked.checkRateLimitDB _ _ _ _ _ _) as [r m1|m1]; [|discriminate].
      destruct Hw1 as [Hw1 _]. simpl in Hal. injection Hal as ->.
      destruct (join_refused isEmail "Invalid email, please try again"
                  (fun issues => ErrFirst (head issues)) request env m1 fields e)
        as (issues & m' & -> & Hw); auto.
      cbn [caught]. eexists _, _. split; [reflexivity|]. rewrite Hw. cbn. auto.
  - split; [|reflexivity]. exists "gmail.com".
    split; [reflexivity|]. split; [discriminate | reflexivity].
  - apply tld_ok_lower.
  - split.
    { exists "mail.gmail.com". split; [reflexivity|]. split; [discriminate | reflexivity]. }
    split; [reflexivity|]. split; vm_compute; reflexivity.
Qed.

(** ** The middleware *)

Lemma app_is_not_waitlist_api p :
  startsWith p "/app" = true -> startsWith p "/api/waitlist" = false.
Proof.
  unfold startsWith.
  destruct p as [|c1 p]; cbn [String.prefix]; [discriminate|].
  destruct (ascii_dec "/" c1); [|discriminate].
  destruct p as [|c2 p]; cbn [String.prefix]; [discriminate|].
  destruct (ascii_dec "a" c2); [|discriminate].
  destruct p as [|c3 p]; cbn [String.prefix]; [discriminate|].
  destruct (ascii_dec "p" c3); [|discriminate].
  destruct p as [|c4 p]; cbn [String.prefix]; [discriminate|].
  destruct (ascii_dec "p" c4) as [<-|]; [|discriminate].
  intros _. destruct (ascii_dec "i" "p"); [discriminate | reflexivity].
Qed.

(** C6: on a pathname that starts with "/app" the middleware redirects
    to "/" on the origin of the request when getSessionCookie finds no
    session cookie, and returns NextResponse.next() when it finds one. *)
Theorem session_gating getSessionCookie limiter_rejects request :
  startsWith (path (url request)) "/app" = true ->
  (getSessionCookie request = None ->
   Middleware.middleware getSessionCookie limiter_rejects request =
   Middleware.NextResponse_redirect
     {| origin := origin (url request); path := "/"; search := "" |}) /\
  (forall cookie, getSessionCookie request = Some cookie -> cookie <> "" ->
   Middleware.middleware getSessionCookie limiter_rejects request =
   Middleware.NextResponse_next).
Proof.
  intros Happ. unfold Middleware.middleware.
  rewrite (app_is_not_waitlist_api _ Happ), Happ. split.
  - intros ->. reflexivity.
  - intros cookie -> Hne. simpl.
    destruct (String.eqb_spec cookie ""); [contradiction | reflexivity].
Qed.

(** ** The cursor manager *)

(** C10: a cursor resolved before its expiry with the source id and the
    operation signature it was issued for yields the native token; with a
    different source id or a different signature it fails with
    InvalidCursor, before its expiry and after it. *)
Theorem cursor_round_trip seal ttl now now' src sig tok :
  (now' < now + ttl ->
   CursorManager.resolve seal now' (CursorManager.issue seal ttl now src sig tok) src sig
     = inr tok) /\
  (forall src' sig', src' <> src \/ sig' <> sig ->
     CursorManager.resolve seal now' (CursorManager.issue seal ttl now src sig tok) src' sig'
       = inl CursorManager.InvalidCursor).
Proof.
  unfold CursorManager.resolve, CursorManager.issue. simpl. split.
  - intros Httl. rewrite !String.eqb_refl. simpl.
    replace (now + ttl <=? now') with false by (symmetry; apply Z.leb_gt; lia).
    reflexivity.
  - intros src' sig' [Hne|Hne].
    + replace (String.eqb src src') with false
        by (symmetry; apply String.eqb_neq; congruence).
      reflexivity.
    + replace (String.eqb sig sig') with false
        by (symmetry; apply String.eqb_neq; congruence).
      rewrite andb_false_r. reflexivity.
Qed.

(** ** The theorems at concrete inputs *)


(** C3 at a request of a client that has used up its three requests. *)
Lemma throttled_denial_at_fourth_request :
  allowed (fst (InMemory.checkRateLimit
                  (client_ip (signup "203.0.113.7" "bob@gmail.com")) 3 60000 10
                  (rateLimitStore throttled_world))) = false /\
  option_map status
    (verdict (InMemory.POST Waitlist.zod3_email (signup "203.0.113.7" "bob@gmail.com")
                (at_time 10) (boot throttled_world))) = Some 429 /\
  option_map status
    (verdict (DbBacked.POST Waitlist.zod3_email (signup "203.0.113.7" "bob@gmail.com")
                (at_time 10) (boot throttled_world))) = Some 429 /\
  Middleware.middleware (fun _ => None) (fun _ _ => true)
    (signup "203.0.113.7" "bob@gmail.com") = Middleware.rate_limited.
Proof.
  split; [reflexivity|].
  destruct throttled_denial_precedes_all_work as (Hmem & Hdb & Hmw).
  split; [|split].
  - destruct (Hmem Waitlist.zod3_email (signup "203.0.113.7" "bob@gmail.com")
                (at_time 10) (boot throttled_world) eq_refl)
      as (rec & resp & m' & _ & E & Hs & _).
    rewrite E. simpl. rewrite Hs. reflexivity.
  - destruct (Hdb Waitlist.zod3_email (signup "203.0.113.7" "bob@gmail.com")
                (at_time 10) (boot throttled_world)
                {| allowed := false; remaining := 0; res_resetTime := 120000 |}
                {| world := throttled_world; issued := 1;
                   events := [EvQuery SelectAttempt] |} eq_refl eq_refl)
      as (row & resp & m' & _ & E & Hs & _).
    rewrite E. simpl. rewrite Hs. reflexivity.
  - destruct (Hmw (fun _ => None) (fun _ _ => true)
                (signup "203.0.113.7" "bob@gmail.com") eq_refl eq_refl)
      as (payload & hs & E & _).
    rewrite E. vm_compute in E. injection E as <- <-. reflexivity.
Defined.

(** C4 at four calls, a clean-up after the window, and a fifth call. *)
Lemma lazy_expiry_with_a_sweep :
  let c t := {| call_ip := "203.0.113.7"; call_limit := 3; call_window := 60000;
                call_now := t |} in
  let ticks := [Hit (c 0); Hit (c 1); Hit (c 2); Hit (c 3); Sweep 60001;
                Hit (c 60002)] in
  chronological (map tick_time ticks) /\
  fst (run_ticks ticks ∅) = fst (run_mem (checks ticks) ∅).
Proof.
  intros c ticks.
  assert (Hs : chronological (map tick_time ticks))
    by (repeat constructor; simpl; lia).
  split; [exact Hs|].
  destruct lazy_expiry_on_access as (_ & _ & H). apply H. exact Hs.
Defined.

(** C5 at a restart of a world whose table holds a used-up row. *)
Lemma restart_at_throttled_world :
  issued (boot throttled_world) = issued (boot (restart throttled_world)) /\
  verdict (DbBacked.checkRateLimitDB "203.0.113.7" 3 120000 10 quiet (boot throttled_world)) =
  verdict (DbBacked.checkRateLimitDB "203.0.113.7" 3 120000 10 quiet
             (boot (restart throttled_world))) /\
  (let others := as_invoked "198.51.100.9" 60000 [11; 12; 13; 14] in
   Forall (fun c => call_ip c <> "203.0.113.7") others /\
   allowed (fst (InMemory.checkRateLimit "203.0.113.7" 3 60000 15
                   (snd (run_mem others (rateLimitStore (restart throttled_world))))))
     = true).
Proof.
  split; [reflexivity|].
  destruct restart_forgets_the_map_and_keeps_the_table as (_ & H & _ & _ & Hfirst).
  split; [apply H; reflexivity|].
  intros others.
  assert (Hother : Forall (fun c => call_ip c <> "203.0.113.7") others)
    by (repeat constructor; discriminate).
  split; [exact Hother|].
  apply (Hfirst throttled_world others "203.0.113.7" 3 60000 15 Hother).
Defined.

(** C6 at the page /app/files, without and with a session cookie. *)
Lemma app_files_gate :
  startsWith "/app/files" "/app" = true /\
  Middleware.middleware (fun _ => None) (fun _ _ => false) (page "/app/files") =
    Middleware.NextResponse_redirect
      {| origin := "https://nimbus.example"; path := "/"; search := "" |} /\
  Middleware.middleware (fun _ => Some "token") (fun _ _ => false) (page "/app/files") =
    Middleware.NextResponse_next.
Proof.
  split; [reflexivity|]. split.
  - apply (session_gating (fun _ => None) (fun _ _ => false) (page "/app/files"));
      reflexivity.
  - apply (session_gating (fun _ => Some "token") (fun _ _ => false) (page "/app/files")
             eq_refl) with (cookie := "token"); [reflexivity | discriminate].
Defined.

(** C7 at a waitlist that already holds ada@gmail.com. *)
Lemma duplicate_signup_at_listed_world :
  known (normalized "Ada@gmail.com") (waitlist (db listed_world)) /\
  fst (settle (InMemory.POST Waitlist.zod3_email (signup "203.0.113.7" "Ada@gmail.com")
                 (at_time 0) (boot listed_world)))
    = Some (response_400 (ErrText "This email is already on the waitlist")) /\
  fst (settle (DbBacked.POST Waitlist.zod3_email (signup "203.0.113.7" "Ada@gmail.com")
                 (at_time 0) (boot listed_world)))
    = Some (response_400 (ErrText "This email is already on the waitlist")) /\
  unique_normalized (waitlist (db listed_world)) /\
  unique_normalized
    (waitlist (db (snd (serve (InMemory.POST Waitlist.zod3_email)
                          [(signup "203.0.113.7" "ada@gmail.com", at_time 0);
                           (signup "203.0.113.7" "bob@gmail.com", at_time 1)]
                          listed_world)))).
Proof.
  assert (Hk : known (normalized "Ada@gmail.com") (waitlist (db listed_world))).
  { eexists. split; [left; reflexivity | reflexivity]. }
  assert (Hu : unique_normalized (waitlist (db listed_world))).
  { split.
    - repeat constructor. apply not_elem_of_nil.
    - intros row [<-|[]]. reflexivity. }
  destruct waitlist_emails_normalized_and_unique as (_ & Hdup & Hserve & _).
  destruct (Hdup Waitlist.zod3_email (signup "203.0.113.7" "Ada@gmail.com") (at_time 0)
              listed_world [("email", JString "Ada@gmail.com")] "Ada@gmail.com"
              eq_refl eq_refl eq_refl eq_refl Hk (fun _ => eq_refl)) as [Hmem Hdb].
  split; [exact Hk|]. split; [|split; [|split; [exact Hu|]]].
  - destruct (Hmem eq_refl) as (w' & E & _). rewrite E. reflexivity.
  - destruct (Hdb eq_refl) as (w' & E & _). rewrite E. reflexivity.
  - apply Hserve. exact Hu.
Defined.

(** C8 at user@Gmail.com. *)
Lemma case_variant_at_Gmail :
  domain_of "user@Gmail.com" = Some "Gmail.com" /\
  Waitlist.domain_allowed "Gmail.com" = false /\
  option_map status
    (verdict (InMemory.POST Waitlist.zod3_email (signup "203.0.113.7" "user@Gmail.com")
                (at_time 0) (boot empty_world))) = Some 400.
Proof.
  split; [reflexivity|]. split; [reflexivity|].
  destruct domain_allow_list_is_case_sensitive as (H & _).
  destruct (H Waitlist.zod3_email (signup "203.0.113.7" "user@Gmail.com") (at_time 0)
              (boot empty_world) [("email", JString "user@Gmail.com")]
              "user@Gmail.com" "Gmail.com" eq_refl eq_refl eq_refl eq_refl) as [Hmem _].
  destruct (Hmem eq_refl) as (resp & m' & E & Hs & _).
  rewrite E. simpl. rewrite Hs. reflexivity.
Defined.

(** C9 at a body that is not JSON and at a database that is down. *)
Lemma garbled_body_answers_500 :
  json (garbled "203.0.113.7") = None /\
  option_map status
    (verdict (InMemory.POST Waitlist.zod3_email (garbled "203.0.113.7") (at_time 0)
                (boot empty_world))) = Some 500 /\
  option_map status
    (verdict (DbBacked.POST Waitlist.zod3_email (signup "203.0.113.7" "ada@gmail.com")
                (database_down 0) (boot empty_world))) = Some 500.
Proof.
  split; [reflexivity|].
  destruct POST_never_throws as (_ & _ & Hjson & Hdb). split.
  - destruct (Hjson Waitlist.zod3_email (garbled "203.0.113.7") (at_time 0)
                (boot empty_world) eq_refl eq_refl) as [m' ->]. reflexivity.
  - destruct (Hdb Waitlist.zod3_email (signup "203.0.113.7" "ada@gmail.com")
                (database_down 0) (boot empty_world) eq_refl) as [m' ->]. reflexivity.
Defined.

(** C10 at a cursor resolved one second after it was issued. *)
Lemma page_two_cursor :
  let seal := fun src sig tok (e : Z) => src +:+ "|" +:+ sig +:+ "|" +:+ tok in
  1000 < 0 + 600000 /\
  CursorManager.resolve seal 1000
    (CursorManager.issue seal 600000 0 "drive-1" "list:/docs" "page-2")
    "drive-1" "list:/docs" = inr "page-2" /\
  CursorManager.resolve seal 1000
    (CursorManager.issue seal 600000 0 "drive-1" "list:/docs" "page-2")
    "drive-2" "list:/docs" = inl CursorManager.InvalidCursor.
Proof.
  intros seal. split; [lia|].
  destruct (cursor_round_trip seal 600000 0 1000 "drive-1" "list:/docs" "page-2")
    as [Hok Hbad].
  split; [apply Hok; lia|]. apply Hbad. left. discriminate.
Defined.

(** ** Further properties of the in-memory limiter *)

Lemma checkRateLimit_entry ip L W now (store : gmap string RateLimitRecord) :
  InMemory.checkRateLimit ip L W now store =
  (fst (entry_step L W now (store !! ip)),
   <[ip := snd (entry_step L W now (store !! ip))]> store).
Proof.
  unfold InMemory.checkRateLimit, entry_step.
  destruct (store !! ip) as [rec|] eqn:E; [|reflexivity].
  destruct (now >? resetTime rec); [reflexivity|].
  destruct (count rec >=? L); [|reflexivity].
  cbn [fst snd]. rewrite insert_id by exact E. reflexivity.
Qed.

Lemma window_result_full L r c i i' : L <= c -> window_result L r c i = window_result L r c i'.
Proof.
  intros H. unfold window_result.
  replace (c + Z.of_nat i <? L) with false by (symmetry; apply Z.ltb_ge; lia).
  replace (c + Z.of_nat i' <? L) with false by (symmetry; apply Z.ltb_ge; lia).
  reflexivity.
Qed.

Lemma window_result_next L r c i : window_result L r c (S i) = window_result L r (c + 1) i.
Proof.
  unfold window_result.
  replace (c + 1 + Z.of_nat i) with (c + Z.of_nat (S i)) by lia. reflexivity.
Qed.

Lemma window_continues ip L W times :
  forall (store : gmap string RateLimitRecord) rec,
    store !! ip = Some rec ->
    Forall (fun t => t <= resetTime rec) times ->
    map snd (fst (run_mem (calls_of ip L W times) store)) =
    map (window_result L (resetTime rec) (count rec)) (seq 0 (length times)).
Proof.
  induction times as [|t times IH]; intros store rec Hst Hin; [reflexivity|].
  apply Forall_cons in Hin as [Ht Hin]. cbn [calls_of map run_mem call_ip call_limit
    call_window call_now length seq].
  destruct (checkRateLimit_cases ip L W t store)
    as [[[Hn|(rec' & Hs' & Hexp)] _]|[(rec' & Hs' & _ & Hfull & E)|(rec' & Hs' & _ & Hroom & E)]].
  - congruence.
  - rewrite Hst in Hs'. injection Hs' as <-. lia.
  - rewrite Hst in Hs'. injection Hs' as <-. rewrite E.
    specialize (IH store rec Hst Hin). fold (calls_of ip L W times).
    destruct (run_mem (calls_of ip L W times) store) as [h s']. cbn [fst snd map] in *.
    rewrite IH. f_equal.
    + unfold window_result. replace (count rec + Z.of_nat 0 <? L) with false
        by (symmetry; apply Z.ltb_ge; lia). reflexivity.
    + rewrite <- seq_shift, map_map. apply map_ext. intros i.
      apply window_result_full. exact Hfull.
  - rewrite Hst in Hs'. injection Hs' as <-. rewrite E.
    specialize (IH (<[ip := {| count := count rec + 1; resetTime := resetTime rec |}]> store)
                   {| count := count rec + 1; resetTime := resetTime rec |}
                   (lookup_insert_eq _ _ _) Hin).
    fold (calls_of ip L W times).
    destruct (run_mem (calls_of ip L W times) _) as [h s']. cbn [fst snd map count resetTime] in *.
    rewrite IH. f_equal.
    + unfold window_result. replace (count rec + Z.of_nat 0 <? L) with true
        by (symmetry; apply Z.ltb_lt; lia).
      f_equal. lia.
    + rewrite <- seq_shift, map_map. apply map_ext. intros i.
      symmetry. apply window_result_next.
Qed.

(** X1: a call that finds no live record opens a window; of the calls of
    that IP that follow before the window is over, in whatever number, the
    first L - 1 are allowed with remaining counting down to 0 and all later
    ones are denied, every one reporting the same reset time. *)
Theorem one_window_counts_down ip L W t0 times (store : gmap string RateLimitRecord) :
  1 <= L ->
  (store !! ip = None \/ exists rec, store !! ip = Some rec /\ t0 > resetTime rec) ->
  Forall (fun t => t <= t0 + W) times ->
  map snd (fst (run_mem (calls_of ip L W (t0 :: times)) store)) =
  map (window_result L (t0 + W) 0) (seq 0 (S (length times))).
Proof.
  intros HL Hst Hin.
  cbn [calls_of map run_mem call_ip call_limit call_window call_now length seq].
  destruct (checkRateLimit_cases ip L W t0 store)
    as [[_ E]|[(rec & Hs & Hle & _)|(rec & Hs & Hle & _)]].
  - rewrite E. fold (calls_of ip L W times).
    pose proof (window_continues ip L W times
                  (<[ip := {| count := 1; resetTime := t0 + W |}]> store)
                  {| count := 1; resetTime := t0 + W |} (lookup_insert_eq _ _ _) Hin) as H.
    destruct (run_mem (calls_of ip L W times) _) as [h s']. cbn [fst snd map count resetTime] in *.
    rewrite H. f_equal.
    + unfold window_result. replace (0 + Z.of_nat 0 <? L) with true
        by (symmetry; apply Z.ltb_lt; lia).
      reflexivity.
    + rewrite <- seq_shift, map_map. apply map_ext. intros i.
      symmetry. apply (window_result_next L (t0 + W) 0 i).
  - destruct Hst as [Hn|(rec' & Hs' & Hexp)]; [congruence|].
    rewrite Hs in Hs'. injection Hs' as <-. lia.
  - destruct Hst as [Hn|(rec' & Hs' & Hexp)]; [congruence|].
    rewrite Hs in Hs'. injection Hs' as <-. lia.
Qed.

(** X1 at limit 3: five calls in one minute. *)
Lemma one_window_of_five_calls :
  1 <= 3 /\ Forall (fun t => t <= 0 + 60000) [10; 20; 59999; 60000] /\
  map snd (fst (run_mem (calls_of "203.0.113.7" 3 60000 [0; 10; 20; 59999; 60000]) ∅)) =
  [ {| allowed := true; remaining := 2; res_resetTime := 60000 |};
    {| allowed := true; remaining := 1; res_resetTime := 60000 |};
    {| allowed := true; remaining := 0; res_resetTime := 60000 |};
    {| allowed := false; remaining := 0; res_resetTime := 60000 |};
    {| allowed := false; remaining := 0; res_resetTime := 60000 |} ].
Proof.
  assert (Hin : Forall (fun t => t <= 0 + 60000) [10; 20; 59999; 60000])
    by (repeat constructor; lia).
  split; [lia|]. split; [exact Hin|].
  rewrite (one_window_counts_down "203.0.113.7" 3 60000 0 [10; 20; 59999; 60000] ∅);
    [reflexivity | lia | left; apply lookup_empty | exact Hin].
Defined.

(** X2: calls for different IPs do not see each other: a call leaves the
    entries of all other IPs as they were, and two calls for different IPs
    return the same results and leave the same map in either order. *)
Theorem calls_of_different_addresses_commute
    ip ip' L W now L' W' now' (store : gmap string RateLimitRecord) :
  ip <> ip' ->
  (forall k, k <> ip ->
     snd (InMemory.checkRateLimit ip L W now store) !! k = store !! k) /\
  fst (InMemory.checkRateLimit ip' L' W' now'
         (snd (InMemory.checkRateLimit ip L W now store)))
    = fst (InMemory.checkRateLimit ip' L' W' now' store) /\
  fst (InMemory.checkRateLimit ip L W now
         (snd (InMemory.checkRateLimit ip' L' W' now' store)))
    = fst (InMemory.checkRateLimit ip L W now store) /\
  snd (InMemory.checkRateLimit ip' L' W' now'
         (snd (InMemory.checkRateLimit ip L W now store)))
    = snd (InMemory.checkRateLimit ip L W now
             (snd (InMemory.checkRateLimit ip' L' W' now' store))).
Proof.
  intros Hne. rewrite !checkRateLimit_entry. cbn [fst snd].
  rewrite !lookup_insert_ne by congruence.
  split; [|split; [|split]]; try reflexivity.
  - intros k Hk. apply lookup_insert_ne. congruence.
  - apply insert_insert_ne. congruence.
Qed.

(** X2 at two addresses. *)
Lemma two_addresses_commute :
  "203.0.113.7" <> "198.51.100.9" /\
  snd (InMemory.checkRateLimit "198.51.100.9" 3 60000 5
         (snd (InMemory.checkRateLimit "203.0.113.7" 3 60000 0 ∅)))
  = snd (InMemory.checkRateLimit "203.0.113.7" 3 60000 0
           (snd (InMemory.checkRateLimit "198.51.100.9" 3 60000 5 ∅))).
Proof.
  assert (Hne : "203.0.113.7" <> "198.51.100.9") by discriminate.
  split; [exact Hne|].
  apply (calls_of_different_addresses_commute
           "203.0.113.7" "198.51.100.9" 3 60000 0 3 60000 5 ∅ Hne).
Defined.

(** X3: what a call returns describes the record it leaves for its IP:
    the reset times are equal; an allowed call returns limit minus the stored
    count, a denied call returns 0 and leaves a count of at least the limit;
    for a limit of at least 1 the remaining count is never negative, and for
    a window that is not negative the reset time is not in the past. *)
Theorem result_describes_the_stored_record ip L W now (store : gmap string RateLimitRecord) :
  exists rec,
    snd (InMemory.checkRateLimit ip L W now store) !! ip = Some rec /\
    resetTime rec = res_resetTime (fst (InMemory.checkRateLimit ip L W now store)) /\
    (0 <= W -> now <= resetTime rec) /\
    (allowed (fst (InMemory.checkRateLimit ip L W now store)) = true ->
     remaining (fst (InMemory.checkRateLimit ip L W now store)) = L - count rec) /\
    (allowed (fst (InMemory.checkRateLimit ip L W now store)) = false ->
     remaining (fst (InMemory.checkRateLimit ip L W now store)) = 0 /\ L <= count rec) /\
    (1 <= L -> 0 <= remaining (fst (InMemory.checkRateLimit ip L W now store))).
Proof.
  destruct (checkRateLimit_cases ip L W now store)
    as [[_ ->]|[(rec & Hs & Hle & Hfull & ->)|(rec & Hs & Hle & Hroom & ->)]]; cbn [fst snd].
  - eexists. rewrite lookup_insert_eq. split; [reflexivity|]. cbn.
    repeat split; try discriminate; lia.
  - exists rec. split; [exact Hs|]. cbn. repeat split; try discriminate; lia.
  - eexists. rewrite lookup_insert_eq. split; [reflexivity|]. cbn.
    repeat split; try discriminate; lia.
Qed.

(** X3 at a full window. *)
Lemma result_of_a_denied_call :
  1 <= 3 /\ 0 <= 60000 /\
  exists rec,
    snd (InMemory.checkRateLimit "203.0.113.7" 3 60000 10 (rateLimitStore throttled_world))
      !! "203.0.113.7" = Some rec /\
    count rec = 3 /\ resetTime rec = 60000 /\
    fst (InMemory.checkRateLimit "203.0.113.7" 3 60000 10 (rateLimitStore throttled_world))
      = {| allowed := false; remaining := 0; res_resetTime := 60000 |}.
Proof.
  split; [lia|]. split; [lia|].
  destruct (result_describes_the_stored_record "203.0.113.7" 3 60000 10
              (rateLimitStore throttled_world)) as (rec & Hs & _).
  exists rec. split; [exact Hs|].
  vm_compute in Hs. injection Hs as <-. repeat split.
Defined.

(** ** The clean-up *)

(** X4: clean-ups compose: one at t1 followed by one at t2 leaves what a
    single clean-up at the later of the two times leaves; so a clean-up
    repeated at the same time changes nothing more, and the order of two
    clean-ups does not matter. *)
Theorem cleanups_compose t1 t2 (store : gmap string RateLimitRecord) :
  InMemory.cleanup t2 (InMemory.cleanup t1 store) = InMemory.cleanup (Z.max t1 t2) store /\
  InMemory.cleanup t1 (InMemory.cleanup t1 store) = InMemory.cleanup t1 store /\
  InMemory.cleanup t2 (InMemory.cleanup t1 store)
    = InMemory.cleanup t1 (InMemory.cleanup t2 store).
Proof.
  assert (H : forall a b,
            InMemory.cleanup b (InMemory.cleanup a store) = InMemory.cleanup (Z.max a b) store).
  { intros a b. apply map_eq. intros ip. rewrite !cleanup_lookup.
    destruct (store !! ip) as [rec|]; [|reflexivity].
    destruct (a >? resetTime rec) eqn:Ea, (b >? resetTime rec) eqn:Eb,
             (Z.max a b >? resetTime rec) eqn:Em;
      rewrite ?Eb; try reflexivity; exfalso;
      rewrite ?Z.gtb_ltb in *;
      repeat match goal with
             | Hx : (_ <? _) = true |- _ => apply Z.ltb_lt in Hx
             | Hx : (_ <? _) = false |- _ => apply Z.ltb_ge in Hx
             end; lia. }
  split; [apply H|]. split.
  - rewrite H, Z.max_id. reflexivity.
  - rewrite !H, Z.max_comm. reflexivity.
Qed.

Lemma resets_by_step B ip L W now (store : gmap string RateLimitRecord) :
  now + W <= B -> resets_by B store ->
  resets_by B (snd (InMemory.checkRateLimit ip L W now store)).
Proof.
  intros Hb Hinv k rec. rewrite checkRateLimit_entry. cbn [snd].
  destruct (decide (k = ip)) as [->|Hne].
  - rewrite lookup_insert_eq. intros [= <-]. unfold entry_step.
    destruct (store !! ip) as [r0|] eqn:E; [|simpl; lia].
    specialize (Hinv ip r0 E).
    destruct (now >? resetTime r0); [simpl; lia|].
    destruct (count r0 >=? L); simpl; lia.
  - rewrite lookup_insert_ne by congruence. apply Hinv.
Qed.

Lemma resets_by_mono B B' (store : gmap string RateLimitRecord) :
  B <= B' -> resets_by B store -> resets_by B' store.
Proof. intros Hle H ip rec Hs. specialize (H ip rec Hs). lia. Qed.

Lemma resets_by_run L W T reqs : forall store : gmap string RateLimitRecord,
  Forall (fun p => snd p <= T) reqs ->
  resets_by (T + W) store ->
  resets_by (T + W) (snd (run_mem (uniform L W reqs) store)).
Proof.
  induction reqs as [|[ip t] reqs IH]; intros store Hin Hinv; [exact Hinv|].
  apply Forall_cons in Hin as [Ht Hin]. simpl in Ht.
  cbn [uniform map run_mem call_ip call_limit call_window call_now fst snd].
  pose proof (resets_by_step (T + W) ip L W t store ltac:(lia) Hinv) as Hstep.
  destruct (InMemory.checkRateLimit ip L W t store) as [r s1]. cbn [snd] in Hstep.
  specialize (IH s1 Hin Hstep). fold (uniform L W reqs).
  destruct (run_mem (uniform L W reqs) s1) as [h s2]. exact IH.
Qed.

(** X5: the clean-up bounds the map: when no call came after time T, a
    clean-up later than T plus the window leaves the map empty, however many
    IPs had called. *)
Theorem cleanup_empties_a_quiet_map L W T now reqs :
  Forall (fun p => snd p <= T) reqs ->
  T + W < now ->
  InMemory.cleanup now (snd (run_mem (uniform L W reqs) ∅)) = ∅.
Proof.
  intros Hin Hlate.
  pose proof (resets_by_run L W T reqs ∅ Hin) as Hinv.
  assert (H0 : resets_by (T + W) (∅ : gmap string RateLimitRecord)).
  { intros ip rec. rewrite lookup_empty. discriminate. }
  specialize (Hinv H0).
  apply map_eq. intros ip. rewrite cleanup_lookup, lookup_empty.
  destruct (snd (run_mem (uniform L W reqs) ∅) !! ip) as [rec|] eqn:E; [|reflexivity].
  specialize (Hinv ip rec E).
  replace (now >? resetTime rec) with true by (symmetry; apply Z.gtb_lt; lia).
  reflexivity.
Qed.

(** X5 at three addresses and a clean-up two minutes later. *)
Lemma cleanup_after_two_minutes :
  let reqs := [("203.0.113.7", 0); ("198.51.100.9", 500); ("192.0.2.1", 900)] in
  Forall (fun p => snd p <= 1000) reqs /\ 1000 + 60000 < 120000 /\
  size (snd (run_mem (uniform 3 60000 reqs) ∅)) = 3%nat /\
  InMemory.cleanup 120000 (snd (run_mem (uniform 3 60000 reqs) ∅)) = ∅.
Proof.
  intros reqs.
  assert (Hin : Forall (fun p : string * Z => snd p <= 1000) reqs)
    by (repeat constructor; simpl; lia).
  split; [exact Hin|]. split; [lia|]. split; [vm_compute; reflexivity|].
  apply (cleanup_empties_a_quiet_map 3 60000 1000 120000 reqs Hin). lia.
Defined.

(** ** Further properties of the database-backed limiter *)

Lemma upsert_rows ip e d :
  let t := rate_limit_attempts d in
  let t1 := rate_limit_attempts (snd (DbBacked.upsert_attempt ip e d)) in
  (NoDup (map identifier t) -> NoDup (map identifier t1)) /\
  (forall ip', ip' <> ip -> row_of ip' t1 = row_of ip' t) /\
  (exists row, row_of ip t1 = Some row /\ attempts row = 1 /\ expiresAt row = e) /\
  waitlist (snd (DbBacked.upsert_attempt ip e d)) = waitlist d.
Proof.
  destruct d as [t wl]. unfold DbBacked.upsert_attempt.
  cbn [snd rate_limit_attempts with_attempts waitlist].
  rewrite existsb_row_of.
  set (g := fun r => {| identifier := identifier r; attempts := 1; expiresAt := e |}).
  destruct (row_of ip t) as [r|] eqn:Hr.
  - rewrite bool_decide_eq_true_2 by eauto. split; [|split; [|split]].
    + rewrite (map_identifier_rewrite g); auto.
    + intros ip' Hne. rewrite (row_of_rewrite g) by auto.
      rewrite decide_False by exact Hne. reflexivity.
    + rewrite (row_of_rewrite g) by auto. rewrite decide_True by reflexivity.
      rewrite Hr. eexists. split; [reflexivity|]. split; reflexivity.
    + reflexivity.
  - rewrite bool_decide_eq_false_2 by (intros [? ?]; discriminate).
    split; [|split; [|split]].
    + intros Hnd. rewrite map_app. simpl. apply NoDup_app. split; [exact Hnd|]. split.
      * intros x Hx Hx'. apply list_elem_of_In in Hx.
        apply list_elem_of_singleton in Hx'. subst x.
        exact (row_of_None_notin _ _ Hr Hx).
      * apply NoDup_singleton.
    + intros ip' Hne. rewrite row_of_snoc. simpl.
      destruct (row_of ip' t); [reflexivity|].
      rewrite decide_False by congruence. reflexivity.
    + rewrite row_of_snoc, Hr. simpl. rewrite decide_True by reflexivity.
      eexists. split; [reflexivity|]. split; reflexivity.
    + reflexivity.
Qed.

Lemma increment_rows ip d r :
  row_of ip (rate_limit_attempts d) = Some r ->
  let t := rate_limit_attempts d in
  let t1 := rate_limit_attempts (snd (DbBacked.increment_attempt ip d)) in
  (NoDup (map identifier t) -> NoDup (map identifier t1)) /\
  (forall ip', ip' <> ip -> row_of ip' t1 = row_of ip' t) /\
  (exists row, row_of ip t1 = Some row /\ attempts row = attempts r + 1 /\
               expiresAt row = expiresAt r) /\
  waitlist (snd (DbBacked.increment_attempt ip d)) = waitlist d.
Proof.
  destruct d as [t wl]. cbn [rate_limit_attempts]. intros Hr.
  unfold DbBacked.increment_attempt. cbn [snd rate_limit_attempts with_attempts waitlist].
  set (g := fun r => {| identifier := identifier r; attempts := attempts r + 1;
                        expiresAt := expiresAt r |}).
  split; [|split; [|split]].
  - rewrite (map_identifier_rewrite g); auto.
  - intros ip' Hne. rewrite (row_of_rewrite g) by auto.
    rewrite decide_False by exact Hne. reflexivity.
  - rewrite (row_of_rewrite g) by auto. rewrite decide_True by reflexivity.
    rewrite Hr. eexists. split; [reflexivity|]. split; reflexivity.
  - reflexivity.
Qed.

(** X6: whatever rejects, a call of checkRateLimitDB changes at most the
    row of its identifier: identifiers stay unique, the rows of the other
    identifiers, the waitlist and the in-memory map are as before; when the
    call rejects the whole database is as before; when it resolves, its
    result describes the row it leaves (same expiry; allowed: limit minus the
    stored count; denied: 0 and a stored count of at least the limit). *)
Theorem database_limiter_touches_only_its_row ip L W now env m :
  let o := DbBacked.checkRateLimitDB ip L W now env m in
  let t := rate_limit_attempts (db (world m)) in
  let t1 := rate_limit_attempts (db (world (final o))) in
  (NoDup (map identifier t) -> NoDup (map identifier t1)) /\
  (forall ip', ip' <> ip -> row_of ip' t1 = row_of ip' t) /\
  waitlist (db (world (final o))) = waitlist (db (world m)) /\
  rateLimitStore (world (final o)) = rateLimitStore (world m) /\
  (verdict o = None -> db (world (final o)) = db (world m)) /\
  (forall r, verdict o = Some r ->
     exists row, row_of ip t1 = Some row /\
                 expiresAt row = res_resetTime r /\
                 (allowed r = true -> remaining r = L - attempts row) /\
                 (allowed r = false -> remaining r = 0 /\ L <= attempts row)).
Proof.
  destruct m as [[store d] n ev].
  unfold DbBacked.checkRateLimitDB, bind, query, ret. cbn [world db issued events].
  destruct (db_fault env n).
  { cbn. repeat split; auto; discriminate. }
  pose proof (select_attempt_rows ip d) as Hsel.
  unfold DbBacked.select_attempt in *. cbn [fst snd] in *. rewrite Hsel. clear Hsel.
  pose proof (upsert_rows ip (now + W) d) as Hup.
  destruct (row_of ip (rate_limit_attempts d)) as [row0|] eqn:Hr;
    cbn [issued world db with_db events].
  - destruct (expiresAt row0 <? now) eqn:Hexp.
    + cbn -[DbBacked.upsert_attempt DbBacked.increment_attempt row_of].
      destruct (db_fault env (S n)).
      { cbn. repeat split; auto; discriminate. }
      destruct (DbBacked.upsert_attempt ip (now + W) d) as [[] d1]. cbn in *.
      destruct Hup as (H1 & H2 & (row & H3 & H4 & H5) & H6).
      repeat split; auto; try discriminate.
      intros r [= <-]. exists row. cbn. repeat split; auto; try discriminate. lia.
    + destruct (attempts row0 >=? L) eqn:Hc.
      { cbn. repeat split; auto; try discriminate.
        intros r [= <-]. exists row0. cbn. repeat split; auto; try discriminate.
        rewrite Z.geb_leb in Hc. apply Z.leb_le in Hc. exact Hc. }
      cbn -[DbBacked.upsert_attempt DbBacked.increment_attempt row_of].
      destruct (db_fault env (S n)).
      { cbn. repeat split; auto; discriminate. }
      pose proof (increment_rows ip d row0 Hr) as Hin.
      destruct (DbBacked.increment_attempt ip d) as [[] d1]. cbn in *.
      destruct Hin as (H1 & H2 & (row & H3 & H4 & H5) & H6).
      repeat split; auto; try discriminate.
      intros r [= <-]. exists row. cbn. repeat split; auto; try discriminate. lia.
  - cbn -[DbBacked.upsert_attempt DbBacked.increment_attempt row_of].
    destruct (db_fault env (S n)).
    { cbn. repeat split; auto; discriminate. }
    destruct (DbBacked.upsert_attempt ip (now + W) d) as [[] d1]. cbn in *.
    destruct Hup as (H1 & H2 & (row & H3 & H4 & H5) & H6).
    repeat split; auto; try discriminate.
    intros r [= <-]. exists row. cbn. repeat split; auto; try discriminate. lia.
Qed.

(** X6 at a call of another address on a table that holds one row. *)
Lemma database_limiter_beside_a_row :
  NoDup (map identifier (rate_limit_attempts (db throttled_world))) /\
  "203.0.113.7" <> "198.51.100.9" /\
  let o := DbBacked.checkRateLimitDB "198.51.100.9" 3 120000 10 quiet (boot throttled_world) in
  NoDup (map identifier (rate_limit_attempts (db (world (final o))))) /\
  row_of "203.0.113.7" (rate_limit_attempts (db (world (final o)))) =
  row_of "203.0.113.7" (rate_limit_attempts (db throttled_world)).
Proof.
  assert (Hnd : NoDup (map identifier (rate_limit_attempts (db throttled_world)))).
  { repeat constructor. apply not_elem_of_nil. }
  assert (Hne : "203.0.113.7" <> "198.51.100.9") by discriminate.
  split; [exact Hnd|]. split; [exact Hne|].
  destruct (database_limiter_touches_only_its_row "198.51.100.9" 3 120000 10 quiet
              (boot throttled_world)) as (H1 & H2 & _).
  split; [apply H1; exact Hnd | apply H2; exact Hne].
Defined.

(** ** Further properties of the POST handlers *)

Lemma join_frame isEmail msg report request env m :
  let m' := final (Waitlist.join isEmail msg report request env m) in
  rateLimitStore (world m') = rateLimitStore (world m) /\
  rate_limit_attempts (db (world m')) = rate_limit_attempts (db (world m)) /\
  (waitlist (db (world m')) = waitlist (db (world m)) \/
   exists e, verdict (Waitlist.join isEmail msg report request env m) = Some response_201 /\
             waitlist (db (world m')) =
               waitlist (db (world m)) ++ [{| id := nanoid env; email := normalized e |}]).
Proof.
  pose proof (join_cases isEmail msg report request env m) as H.
  destruct (Waitlist.join isEmail msg report request env m) as [r m'|m'];
    inversion H; subst; cbn [final verdict];
    try (repeat split; [congruence | congruence | left; congruence]).
  repeat split; [assumption | assumption |]. right. exists e. split; [reflexivity | assumption].
Qed.

Lemma join_created isEmail msg report request env m r m' :
  Waitlist.join isEmail msg report request env m = Resolved r m' ->
  status r = 201 ->
  exists fields e,
    json request = Some (JObject fields) /\
    json_get "email" fields = Some (JString e) /\
    isEmail e = true /\ Waitlist.refine_email e = true /\
    waitlist (db (world m')) =
      waitlist (db (world m)) ++ [{| id := nanoid env; email := normalized e |}].
Proof.
  intros E Hs. pose proof (join_cases isEmail msg report request env m) as H.
  rewrite E in H. inversion H; subst; cbn in Hs; try discriminate Hs.
  match goal with Hp : Waitlist.safeParse _ _ _ = inl _ |- _ =>
    destruct (safeParse_accepts _ _ _ _ Hp) as (fields & -> & Hg & Hv1 & Hv2) end.
  exists fields, e. auto.
Qed.

Lemma final_caught o : final (caught o) = final o.
Proof. destruct o; reflexivity. Qed.

(** X7: every request counts against the limit, whatever answer it gets:
    after the in-memory POST the map is what checkRateLimit left, after the
    database-backed POST the table is what checkRateLimitDB left, also when
    the answer is 400 or 500; neither handler touches the store of the
    other. *)
Theorem every_request_is_counted isEmail request env m :
  (let m' := final (InMemory.POST isEmail request env m) in
   rateLimitStore (world m') =
     snd (InMemory.checkRateLimit (client_ip request) 3 60000 (now_check env)
            (rateLimitStore (world m))) /\
   rate_limit_attempts (db (world m')) = rate_limit_attempts (db (world m))) /\
  (let m' := final (DbBacked.POST isEmail request env m) in
   rate_limit_attempts (db (world m')) =
     rate_limit_attempts
       (db (world (final (DbBacked.checkRateLimitDB (client_ip request) 3 120000
                            (now_check env) env m)))) /\
   rateLimitStore (world m') = rateLimitStore (world m)).
Proof.
  split.
  - rewrite POST_caught_mem, final_caught, POST_try_mem. cbn zeta.
    destruct (allowed _).
    + match goal with |- context [Waitlist.join ?x1 ?x2 ?x3 ?x4 ?x5 ?x6] =>
        destruct (join_frame x1 x2 x3 x4 x5 x6) as (H1 & H2 & _) end.
      rewrite H1, H2. split; reflexivity.
    + split; reflexivity.
  - rewrite POST_caught_db, final_caught, POST_try_db.
    pose proof (checkRateLimitDB_waitlist (client_ip request) 3 120000 (now_check env)
                  env m) as Hw.
    destruct (DbBacked.checkRateLimitDB _ _ _ _ _ _) as [r m1|m1]; destruct Hw as [_ Hs];
      cbn [final]; [|split; [reflexivity | exact Hs]].
    destruct (allowed r); [|split; [reflexivity | exact Hs]].
    destruct (join_frame isEmail "Invalid email, please try again"
                (fun issues => ErrFirst (head issues)) request env m1) as (H1 & H2 & _).
    rewrite H1, H2. split; [reflexivity | exact Hs].
Qed.

Lemma checkRateLimitDB_rejected ip L W now env m m1 :
  DbBacked.checkRateLimitDB ip L W now env m = Rejected m1 ->
  db_fault env (issued m) = true \/ db_fault env (S (issued m)) = true.
Proof.
  destruct m as [[store d] n ev].
  unfold DbBacked.checkRateLimitDB, bind, query, ret. cbn [world db issued events].
  destruct (db_fault env n); [auto|].
  unfold DbBacked.select_attempt. cbn [fst snd].
  destruct (take 1 _) as [|row ?];
    cbn -[DbBacked.upsert_attempt DbBacked.increment_attempt].
  - destruct (db_fault env (S n)); [auto|].
    destruct (DbBacked.upsert_attempt _ _ _); discriminate.
  - destruct (expiresAt row <? now).
    + cbn -[DbBacked.upsert_attempt DbBacked.increment_attempt].
      destruct (db_fault env (S n)); [auto|].
      destruct (DbBacked.upsert_attempt _ _ _); discriminate.
    + destruct (attempts row >=? L); [discriminate|].
      cbn -[DbBacked.upsert_attempt DbBacked.increment_attempt].
      destruct (db_fault env (S n)); [auto|].
      destruct (DbBacked.increment_attempt _ _); discriminate.
Qed.

Lemma join_rejected isEmail msg report request env m m' :
  Waitlist.join isEmail msg report request env m = Rejected m' ->
  json request = None \/ exists n, db_fault env n = true.
Proof.
  intros E. pose proof (join_cases isEmail msg report request env m) as H.
  rewrite E in H. inversion H; subst; eauto.
Qed.

(** X8: a 500 has a cause: when either POST answers 500, the body of the
    request did not parse as JSON or a database statement rejected. A body
    that parses is never answered 500 while the database works, whatever it
    contains. *)
Theorem internal_error_has_a_cause isEmail request env m resp m' :
  InMemory.POST isEmail request env m = Resolved resp m' \/
  DbBacked.POST isEmail request env m = Resolved resp m' ->
  status resp = 500 ->
  json request = None \/ exists n, db_fault env n = true.
Proof.
  intros [E|E] Hs.
  - rewrite POST_caught_mem, POST_try_mem in E. cbn zeta in E.
    destruct (allowed _) in E.
    + destruct (Waitlist.join _ _ _ _ _ _) as [r m1|m1] eqn:Ej; cbn [caught] in E.
      * injection E as <- _.
        destruct (join_unsuccessful _ _ _ _ _ _ _ _ Ej) as [[H _]|[H _]]; congruence.
      * exact (join_rejected _ _ _ _ _ _ _ Ej).
    + cbn [caught] in E. injection E as <- _. discriminate Hs.
  - rewrite POST_caught_db, POST_try_db in E.
    destruct (DbBacked.checkRateLimitDB _ _ _ _ _ _) as [r0 m0|m0] eqn:El.
    + destruct (allowed r0).
      * destruct (Waitlist.join _ _ _ _ _ _) as [r m1|m1] eqn:Ej; cbn [caught] in E.
        -- injection E as <- _.
           destruct (join_unsuccessful _ _ _ _ _ _ _ _ Ej) as [[H _]|[H _]]; congruence.
        -- exact (join_rejected _ _ _ _ _ _ _ Ej).
      * cbn [caught] in E. injection E as <- _. discriminate Hs.
    + right. destruct (checkRateLimitDB_rejected _ _ _ _ _ _ _ El); eauto.
Qed.

(** X8 at a request whose body is not JSON. *)
Lemma garbled_body_is_the_cause :
  status response_500 = 500 /\
  (json (garbled "203.0.113.7") = None \/ exists n, db_fault (at_time 0) n = true).
Proof.
  split; [reflexivity|].
  apply (internal_error_has_a_cause Waitlist.zod3_email (garbled "203.0.113.7") (at_time 0)
           (boot empty_world) response_500
           (final (InMemory.POST Waitlist.zod3_email (garbled "203.0.113.7") (at_time 0)
                     (boot empty_world))));
    [left; vm_compute; reflexivity | reflexivity].
Defined.

Lemma POST_mem_settles isEmail request env w :
  let r := fst (InMemory.checkRateLimit (client_ip request) 3 60000 (now_check env)
                  (rateLimitStore w)) in
  exists a w',
    settle (InMemory.POST isEmail request env (boot w)) = (Some a, w') /\
    rateLimitStore w' =
      snd (InMemory.checkRateLimit (client_ip request) 3 60000 (now_check env)
             (rateLimitStore w)) /\
    (allowed r = false ->
     a = response_429 (ceil_div (res_resetTime r - now_reply env) 1000)) /\
    (allowed r = true -> status a <> 429).
Proof.
  intros r. rewrite POST_caught_mem, POST_try_mem. cbn zeta.
  change (world (boot w)) with w. fold r.
  destruct (allowed r) eqn:Ha.
  - match goal with |- context [Waitlist.join ?x1 ?x2 ?x3 ?x4 ?x5 ?x6] =>
      destruct (join_frame x1 x2 x3 x4 x5 x6) as (Hf & _) end.
    destruct (Waitlist.join _ _ _ _ _ _) as [a m1|m1] eqn:Ej; cbn [caught settle final] in *.
    + exists a, (world m1). split; [reflexivity|]. split; [exact Hf|].
      split; [discriminate|]. intros _.
      destruct (join_unsuccessful _ _ _ _ _ _ _ _ Ej) as [[H _]|[H _]]; rewrite H; lia.
    + exists response_500, (world m1). split; [reflexivity|].
      split; [exact Hf|]. split; [discriminate|]. intros _. cbn. lia.
  - cbn [caught settle final]. eexists _, _. split; [reflexivity|].
    split; [reflexivity|]. split; [reflexivity | discriminate].
Qed.

Lemma POST_db_settles isEmail request env w (s : gmap string RateLimitRecord) :
  (forall n, db_fault env n = false) ->
  agree s (rate_limit_attempts (db w)) ->
  let r := fst (InMemory.checkRateLimit (client_ip request) 3 120000 (now_check env) s) in
  exists a w',
    settle (DbBacked.POST isEmail request env (boot w)) = (Some a, w') /\
    agree (snd (InMemory.checkRateLimit (client_ip request) 3 120000 (now_check env) s))
          (rate_limit_attempts (db w')) /\
    (allowed r = false ->
     a = response_429 (ceil_div (res_resetTime r - now_reply env) 1000)) /\
    (allowed r = true -> status a <> 429).
Proof.
  intros Hq Hag r.
  destruct (checkRateLimitDB_sim (client_ip request) 3 120000 (now_check env) env
              (boot w) s Hq Hag) as (m1 & E1 & Hag1 & _).
  rewrite POST_caught_db, POST_try_db, E1. fold r.
  destruct (allowed r) eqn:Ha.
  - destruct (join_frame isEmail "Invalid email, please try again"
                (fun issues => ErrFirst (head issues)) request env m1) as (_ & Ht & _).
    destruct (Waitlist.join _ _ _ _ _ _) as [a m2|m2] eqn:Ej; cbn [caught settle final] in *.
    + exists a, (world m2). split; [reflexivity|]. rewrite Ht. split; [exact Hag1|].
      split; [discriminate|]. intros _.
      destruct (join_unsuccessful _ _ _ _ _ _ _ _ Ej) as [[H _]|[H _]]; rewrite H; lia.
    + exists response_500, (world m2). split; [reflexivity|]. rewrite Ht.
      split; [exact Hag1|]. split; [discriminate|]. intros _. cbn. lia.
  - cbn [caught settle]. eexists _, _. split; [reflexivity|].
    split; [exact Hag1|]. split; [reflexivity | discriminate].
Qed.


(** ** A handler in front of a window limiter *)

Section Window.

Variable handler : Request -> Async Response.
Variable W : Z.
Variable healthy : Env -> Prop.
Variable holds : World -> gmap string RateLimitRecord -> Prop.

Hypothesis step : forall request env w (s : gmap string RateLimitRecord),
  holds w s -> healthy env ->
  exists a w',
    settle (handler request env (boot w)) = (Some a, w') /\
    holds w' (snd (InMemory.checkRateLimit (client_ip request) 3 W (now_check env) s)) /\
    (allowed (fst (InMemory.checkRateLimit (client_ip request) 3 W (now_check env) s))
       = false ->
     a = response_429
           (ceil_div (res_resetTime
                        (fst (InMemory.checkRateLimit (client_ip request) 3 W
                                (now_check env) s)) - now_reply env) 1000)) /\
    (allowed (fst (InMemory.checkRateLimit (client_ip request) 3 W (now_check env) s))
       = true -> status a <> 429).

Lemma serve_in_window ip rest : forall w (s : gmap string RateLimitRecord) rec,
  holds w s -> s !! ip = Some rec ->
  Forall (fun p => healthy (snd p) /\ client_ip (fst p) = ip /\
                   now_check (snd p) <= resetTime rec) rest ->
  forall (i : nat) a,
    fst (serve handler rest w) !! i = Some a ->
    exists resp, a = Some resp /\ (status resp = 429 <-> 3 <= count rec + Z.of_nat i).
Proof.
  induction rest as [|[request env] rest IH]; intros w s rec Hh Hst Hin i a Hl;
    [discriminate|].
  apply Forall_cons in Hin as [(Hq & Hip & Ht) Hin]. cbn [fst snd] in Hq, Hip, Ht.
  cbn [serve] in Hl.
  destruct (step request env w s Hh Hq) as (a0 & w1 & Es & Hh1 & Hden & Hok).
  rewrite Es in Hl. rewrite Hip in Hh1, Hden, Hok.
  destruct (checkRateLimit_cases ip 3 W (now_check env) s)
    as [[[Hn|(rec' & Hs' & Hexp)] _]|[(rec' & Hs' & _ & Hfull & E)|(rec' & Hs' & _ & Hroom & E)]].
  - congruence.
  - rewrite Hst in Hs'. injection Hs' as <-. lia.
  - rewrite Hst in Hs'. injection Hs' as <-. rewrite E in Hh1, Hden, Hok.
    cbn [fst snd allowed] in *.
    specialize (IH w1 s rec Hh1 Hst Hin).
    destruct (serve handler rest w1) as [l w2]. cbn [fst] in *.
    destruct i as [|i]; cbn in Hl.
    + injection Hl as <-. exists a0. split; [reflexivity|].
      rewrite (Hden eq_refl). cbn. split; intros; lia.
    + destruct (IH i a Hl) as (resp & -> & Hiff). exists resp. split; [reflexivity|].
      rewrite Hiff. lia.
  - rewrite Hst in Hs'. injection Hs' as <-. rewrite E in Hh1, Hden, Hok.
    cbn [fst snd allowed] in *.
    specialize (IH w1 _ {| count := count rec + 1; resetTime := resetTime rec |}
                   Hh1 (lookup_insert_eq _ _ _) Hin).
    destruct (serve handler rest w1) as [l w2]. cbn [fst] in *.
    destruct i as [|i]; cbn in Hl.
    + injection Hl as <-. exists a0. split; [reflexivity|].
      specialize (Hok eq_refl). split; intros; [contradiction | lia].
    + destruct (IH i a Hl) as (resp & -> & Hiff). exists resp. split; [reflexivity|].
      rewrite Hiff. cbn [count]. lia.
Qed.

Lemma serve_new_window ip first rest w (s : gmap string RateLimitRecord) :
  holds w s ->
  healthy (snd first) -> client_ip (fst first) = ip ->
  (s !! ip = None \/ exists rec, s !! ip = Some rec /\ now_check (snd first) > resetTime rec) ->
  Forall (fun p => healthy (snd p) /\ client_ip (fst p) = ip /\
                   now_check (snd p) <= now_check (snd first) + W) rest ->
  forall (i : nat) a,
    fst (serve handler (first :: rest) w) !! i = Some a ->
    exists resp, a = Some resp /\ (status resp = 429 <-> (3 <= i)%nat).
Proof.
  destruct first as [request env]. cbn [fst snd]. intros Hh Hq Hip Hst Hin i a Hl.
  cbn [serve] in Hl.
  destruct (step request env w s Hh Hq) as (a0 & w1 & Es & Hh1 & _ & Hok).
  rewrite Es in Hl. rewrite Hip in Hh1, Hok.
  destruct (checkRateLimit_cases ip 3 W (now_check env) s)
    as [[_ E]|[(rec & Hs & Hle & _)|(rec & Hs & Hle & _)]].
  - rewrite E in Hh1, Hok. cbn [fst snd allowed] in *.
    pose proof (serve_in_window ip rest w1 _
                  {| count := 1; resetTime := now_check env + W |}
                  Hh1 (lookup_insert_eq _ _ _) Hin) as Hrest.
    destruct (serve handler rest w1) as [l w2]. cbn [fst] in *.
    destruct i as [|i]; cbn in Hl.
    + injection Hl as <-. exists a0. split; [reflexivity|].
      specialize (Hok eq_refl). split; intros; [contradiction | lia].
    + destruct (Hrest i a Hl) as (resp & -> & Hiff). exists resp. split; [reflexivity|].
      rewrite Hiff. cbn [count]. lia.
  - destruct Hst as [Hn|(rec' & Hs' & Hexp)]; [congruence|].
    rewrite Hs in Hs'. injection Hs' as <-. lia.
  - destruct Hst as [Hn|(rec' & Hs' & Hexp)]; [congruence|].
    rewrite Hs in Hs'. injection Hs' as <-. lia.
Qed.

Lemma ceil_div_at_most a n : a <= 1000 * n -> ceil_div a 1000 <= n.
Proof.
  intros H. pose proof (ceil_div_bounds a 1000 ltac:(lia)) as Hb. lia.
Qed.

Lemma serve_waits n reqs : W = 1000 * n -> forall w (s : gmap string RateLimitRecord) B,
  holds w s ->
  resets_by B s ->
  Forall (fun p => healthy (snd p) /\ B <= now_check (snd p) + W) reqs ->
  clock_ordered reqs ->
  Forall (wait_at_most n) (fst (serve handler reqs w)).
Proof.
  intros HW.
  induction reqs as [|[request env] rest IH]; intros w s B Hh Hinv Hlow [Hs Hrep];
    [constructor|].
  apply Forall_cons in Hlow as [[Hq Hb] Hlow]. apply Forall_cons in Hrep as [Hr Hrep].
  cbn [map fst snd] in *. apply StronglySorted_cons in Hs as [Hle Hs].
  cbn [serve].
  destruct (step request env w s Hh Hq) as (a & w1 & Es & Hh1 & Hden & Hok).
  rewrite Es.
  assert (Hinv1 : resets_by (now_check env + W)
                    (snd (InMemory.checkRateLimit (client_ip request) 3 W
                            (now_check env) s))).
  { apply resets_by_step; [lia|]. apply (resets_by_mono B); [exact Hb | exact Hinv]. }
  assert (Hrest : Forall (wait_at_most n) (fst (serve handler rest w1))).
  { apply (IH w1 _ (now_check env + W) Hh1 Hinv1); [|split; assumption].
    apply Forall_forall. intros p Hp. rewrite Forall_forall in Hle.
    rewrite Forall_forall in Hlow.
    split; [apply (Hlow p Hp)|].
    specialize (Hle (now_check (snd p))).
    assert (now_check env <= now_check (snd p)); [|lia].
    apply Hle. apply list_elem_of_fmap. exists p. split; [reflexivity | exact Hp]. }
  destruct (serve handler rest w1) as [l w2]. cbn [fst] in *.
  constructor; [|exact Hrest].
  intros r [= <-] Hst.
  destruct (allowed (fst (InMemory.checkRateLimit (client_ip request) 3 W
                            (now_check env) s))) eqn:Ha.
  - exfalso. exact (Hok eq_refl Hst).
  - rewrite (Hden eq_refl). eexists. split; [reflexivity|].
    destruct (checkRateLimit_denied _ _ _ _ _ Ha) as (_ & rec & Hrec & _ & _ & Hres).
    rewrite Hres. cbn [res_resetTime]. apply ceil_div_at_most.
    specialize (Hinv _ _ Hrec). lia.
Qed.

Lemma serve_waits_from_nothing n reqs w (s : gmap string RateLimitRecord) :
  W = 1000 * n ->
  holds w s -> s = ∅ ->
  Forall (fun p => healthy (snd p)) reqs ->
  clock_ordered reqs ->
  Forall (wait_at_most n) (fst (serve handler reqs w)).
Proof.
  intros HW Hh Hempty Hq Hord. destruct reqs as [|[request env] rest]; [constructor|].
  apply (serve_waits n ((request, env) :: rest) HW w s (now_check env + W) Hh).
  - intros ip rec. rewrite Hempty, lookup_empty. discriminate.
  - destruct Hord as [Hs _]. cbn [map fst snd] in Hs.
    apply StronglySorted_cons in Hs as [Hle _].
    apply Forall_forall. intros p Hp. rewrite Forall_forall in Hq. split; [apply Hq, Hp|].
    apply elem_of_cons in Hp as [->|Hp]; [cbn; lia|].
    rewrite Forall_forall in Hle. specialize (Hle (now_check (snd p))).
    assert (now_check env <= now_check (snd p)); [|lia].
    apply Hle. apply list_elem_of_fmap. exists p. split; [reflexivity | exact Hp].
  - exact Hord.
Qed.

End Window.

Lemma step_mem isEmail request env w (s : gmap string RateLimitRecord) :
  rateLimitStore w = s -> True ->
  exists a w',
    settle (InMemory.POST isEmail request env (boot w)) = (Some a, w') /\
    rateLimitStore w' =
      snd (InMemory.checkRateLimit (client_ip request) 3 60000 (now_check env) s) /\
    (allowed (fst (InMemory.checkRateLimit (client_ip request) 3 60000 (now_check env) s))
       = false ->
     a = response_429
           (ceil_div (res_resetTime
                        (fst (InMemory.checkRateLimit (client_ip request) 3 60000
                                (now_check env) s)) - now_reply env) 1000)) /\
    (allowed (fst (InMemory.checkRateLimit (client_ip request) 3 60000 (now_check env) s))
       = true -> status a <> 429).
Proof. intros <- _. apply POST_mem_settles. Qed.

Lemma step_db isEmail request env w (s : gmap string RateLimitRecord) :
  agree s (rate_limit_attempts (db w)) -> (forall n, db_fault env n = false) ->
  exists a w',
    settle (DbBacked.POST isEmail request env (boot w)) = (Some a, w') /\
    agree (snd (InMemory.checkRateLimit (client_ip request) 3 120000 (now_check env) s))
          (rate_limit_attempts (db w')) /\
    (allowed (fst (InMemory.checkRateLimit (client_ip request) 3 120000 (now_check env) s))
       = false ->
     a = response_429
           (ceil_div (res_resetTime
                        (fst (InMemory.checkRateLimit (client_ip request) 3 120000
                                (now_check env) s)) - now_reply env) 1000)) /\
    (allowed (fst (InMemory.checkRateLimit (client_ip request) 3 120000 (now_check env) s))
       = true -> status a <> 429).
Proof. intros Hag Hq. apply POST_db_settles; assumption. Qed.

(** X9: the in-memory handler lets exactly three requests per window
    through: of the requests of one client address that arrive from the first
    of a window until its reset time, whatever their bodies and whatever the
    database does, the first three are not answered 429 and every later one
    is. *)
Theorem exactly_three_requests_pass_per_window isEmail ip first rest w :
  client_ip (fst first) = ip ->
  (rateLimitStore w !! ip = None \/
   exists rec, rateLimitStore w !! ip = Some rec /\ now_check (snd first) > resetTime rec) ->
  Forall (fun p => client_ip (fst p) = ip /\
                   now_check (snd p) <= now_check (snd first) + 60000) rest ->
  forall (i : nat) a,
    fst (serve (InMemory.POST isEmail) (first :: rest) w) !! i = Some a ->
    exists resp, a = Some resp /\ (status resp = 429 <-> (3 <= i)%nat).
Proof.
  intros Hip Hst Hin.
  apply (serve_new_window (InMemory.POST isEmail) 60000 (fun _ => True)
           (fun w s => rateLimitStore w = s) (step_mem isEmail)
           ip first rest w (rateLimitStore w) eq_refl I Hip Hst).
  eapply Forall_impl; [exact Hin|]. intros p [H1 H2]. auto.
Qed.

(** X9 at five requests with bodies of all kinds. *)
Lemma five_requests_in_a_minute :
  let reqs := [(garbled "203.0.113.7", at_time 10);
               (signup "203.0.113.7" "nonsense", at_time 20);
               (signup "203.0.113.7" "ada@gmail.com", database_down 30);
               (signup "203.0.113.7" "ada@gmail.com", at_time 40)] in
  Forall (fun p : Request * Env =>
            client_ip (fst p) = "203.0.113.7" /\ now_check (snd p) <= 0 + 60000) reqs /\
  statuses (fst (serve (InMemory.POST Waitlist.zod3_email)
                   ((signup "203.0.113.7" "ada@gmail.com", at_time 0) :: reqs) empty_world))
  = [Some 201; Some 500; Some 400; Some 429; Some 429] /\
  exists resp,
    fst (serve (InMemory.POST Waitlist.zod3_email)
           ((signup "203.0.113.7" "ada@gmail.com", at_time 0) :: reqs) empty_world)
      !! 3%nat = Some (Some resp) /\ status resp = 429.
Proof.
  intros reqs.
  assert (Hin : Forall (fun p : Request * Env =>
            client_ip (fst p) = "203.0.113.7" /\ now_check (snd p) <= 0 + 60000) reqs).
  { repeat constructor; simpl; lia. }
  split; [exact Hin|]. split; [vm_compute; reflexivity|].
  destruct (exactly_three_requests_pass_per_window Waitlist.zod3_email "203.0.113.7"
              (signup "203.0.113.7" "ada@gmail.com", at_time 0) reqs empty_world
              eq_refl (or_introl (lookup_empty _)) Hin 3%nat
              (Some (response_429 60))) as (resp & E & Hiff).
  { vm_compute. reflexivity. }
  exists resp. split; [rewrite <- E; vm_compute; reflexivity|].
  apply Hiff. lia.
Defined.



(** ** The waitlist over time *)

Lemma signup_effect_prefix request env w out :
  signup_effect request env w out ->
  waitlist (db w) `prefix_of` waitlist (db (snd out)).
Proof.
  intros [->|(fields & e & _ & _ & _ & _ & ->)]; [reflexivity|].
  apply prefix_app_r. reflexivity.
Qed.

Lemma serve_prefix handler :
  (forall request env w, signup_effect request env w (settle (handler request env (boot w)))) ->
  forall reqs w, waitlist (db w) `prefix_of` waitlist (db (snd (serve handler reqs w))).
Proof.
  intros Heff. induction reqs as [|[request env] rest IH]; intros w; simpl; [reflexivity|].
  pose proof (signup_effect_prefix _ _ _ _ (Heff request env w)) as H1.
  destruct (settle (handler request env (boot w))) as [a w1]. simpl in H1.
  specialize (IH w1). destruct (serve handler rest w1) as [l w2]. simpl in *.
  etransitivity; eassumption.
Qed.

Lemma known_prefix e t t' : t `prefix_of` t' -> known e t -> known e t'.
Proof.
  intros [k ->] (row & Hin & He). exists row. split; [apply in_or_app; auto | exact He].
Qed.

Lemma POST_created isEmail request env w resp w' :
  settle (InMemory.POST isEmail request env (boot w)) = (Some resp, w') \/
  settle (DbBacked.POST isEmail request env (boot w)) = (Some resp, w') ->
  status resp = 201 ->
  exists fields e,
    json request = Some (JObject fields) /\
    json_get "email" fields = Some (JString e) /\
    isEmail e = true /\ Waitlist.refine_email e = true /\
    known (normalized e) (waitlist (db w')).
Proof.
  assert (Hlast : forall (t : list WaitlistRow) i e,
            known (normalized e) (t ++ [{| id := i; email := normalized e |}])).
  { intros t i e. eexists. split; [apply in_or_app; right; left; reflexivity | reflexivity]. }
  intros [E|E] Hs.
  - rewrite POST_caught_mem, POST_try_mem in E. cbn zeta in E.
    destruct (allowed _) in E.
    + destruct (Waitlist.join _ _ _ _ _ _) as [r m1|m1] eqn:Ej; cbn [caught settle] in E;
        injection E as <- <-; [|discriminate Hs].
      destruct (join_created _ _ _ _ _ _ _ _ Ej Hs) as (fields & e & H1 & H2 & H3 & H4 & H5).
      exists fields, e. rewrite H5. auto 6.
    + cbn [caught settle] in E. injection E as <- _. discriminate Hs.
  - rewrite POST_caught_db, POST_try_db in E.
    destruct (DbBacked.checkRateLimitDB _ _ _ _ _ _) as [r0 m0|m0];
      [|cbn [caught settle] in E; injection E as <- _; discriminate Hs].
    destruct (allowed r0).
    + destruct (Waitlist.join _ _ _ _ _ _) as [r m1|m1] eqn:Ej; cbn [caught settle] in E;
        injection E as <- <-; [|discriminate Hs].
      destruct (join_created _ _ _ _ _ _ _ _ Ej Hs) as (fields & e & H1 & H2 & H3 & H4 & H5).
      exists fields, e. rewrite H5. auto 6.
    + cbn [caught settle] in E. injection E as <- _. discriminate Hs.
Qed.

(** X10: the waitlist only grows: whatever requests either handler
    serves, the rows that were in the table are still there, unchanged and in
    the same order, followed by the new ones. *)
Theorem waitlist_only_grows isEmail reqs w :
  waitlist (db w) `prefix_of`
    waitlist (db (snd (serve (InMemory.POST isEmail) reqs w))) /\
  waitlist (db w) `prefix_of`
    waitlist (db (snd (serve (DbBacked.POST isEmail) reqs w))).
Proof.
  split; apply serve_prefix; intros; [apply POST_effect_mem | apply POST_effect_db].
Qed.

(** X11: a 201 means the address is on the list and stays there: when
    either handler answers 201, the body was an object whose email passed
    both tests, and its lower-cased, trimmed form is stored in the table
    after this request and after any requests served later. *)
Theorem created_means_stored_for_good isEmail request env w resp w' later :
  settle (InMemory.POST isEmail request env (boot w)) = (Some resp, w') \/
  settle (DbBacked.POST isEmail request env (boot w)) = (Some resp, w') ->
  status resp = 201 ->
  exists fields e,
    json request = Some (JObject fields) /\
    json_get "email" fields = Some (JString e) /\
    isEmail e = true /\ Waitlist.refine_email e = true /\
    known (normalized e) (waitlist (db w')) /\
    known (normalized e)
          (waitlist (db (snd (serve (InMemory.POST isEmail) later w')))) /\
    known (normalized e)
          (waitlist (db (snd (serve (DbBacked.POST isEmail) later w')))).
Proof.
  intros E Hs.
  destruct (POST_created isEmail request env w resp w' E Hs)
    as (fields & e & H1 & H2 & H3 & H4 & H5).
  exists fields, e. repeat split; auto.
  - eapply known_prefix; [|exact H5].
    apply serve_prefix. intros. apply POST_effect_mem.
  - eapply known_prefix; [|exact H5].
    apply serve_prefix. intros. apply POST_effect_db.
Qed.

(** X11 at a signup followed by a request of another client. *)
Lemma ada_stays_on_the_list :
  let first := InMemory.POST Waitlist.zod3_email (signup "203.0.113.7" "Ada@gmail.com")
                 (at_time 0) (boot empty_world) in
  option_map status (fst (settle first)) = Some 201 /\
  known "ada@gmail.com"
        (waitlist (db (snd (serve (InMemory.POST Waitlist.zod3_email)
                              [(signup "198.51.100.9" "bob@gmail.com", at_time 5)]
                              (snd (settle first)))))).
Proof.
  intros first. split; [vm_compute; reflexivity|].
  destruct (created_means_stored_for_good Waitlist.zod3_email
              (signup "203.0.113.7" "Ada@gmail.com") (at_time 0) empty_world
              response_201 (snd (settle first))
              [(signup "198.51.100.9" "bob@gmail.com", at_time 5)])
    as (fields & e & H1 & H2 & _ & _ & _ & H6 & _).
  - left. vm_compute. reflexivity.
  - reflexivity.
  - cbn in H1. injection H1 as <-. cbn in H2. injection H2 as <-. exact H6.
Defined.

(** ** The refinement of the email schema *)

Lemma endsWith_append s suffix :
  endsWith s suffix = true <-> exists pre, s = pre +:+ suffix.
Proof.
  split.
  - induction s as [|c r IH]; cbn [endsWith].
    + rewrite orb_false_r. intros H. apply String.eqb_eq in H. subst. exists "". reflexivity.
    + intros H. apply orb_true_iff in H as [H|H].
      * apply String.eqb_eq in H. exists "". rewrite H. reflexivity.
      * destruct (IH H) as [pre ->]. exists (String c pre). reflexivity.
  - intros [pre ->]. induction pre as [|c pre IH].
    + change ("" +:+ suffix) with suffix.
      destruct suffix; cbn [endsWith]; rewrite String.eqb_refl; reflexivity.
    + change (String c pre +:+ suffix) with (String c (pre +:+ suffix)).
      cbn [endsWith]. rewrite IH. apply orb_true_r.
Qed.

Lemma split_nonempty sep s : exists w ws, split sep s = w :: ws.
Proof.
  destruct s as [|c r]; simpl; [eauto|].
  destruct (Ascii.eqb c sep); [eauto|].
  destruct (split sep r); eauto.
Qed.

Lemma split_at_separator sep s1 s2 :
  split sep (s1 +:+ String sep s2) = split sep s1 ++ split sep s2.
Proof.
  induction s1 as [|c r IH]; simpl.
  - rewrite Ascii.eqb_refl. reflexivity.
  - rewrite IH. destruct (Ascii.eqb c sep); [reflexivity|].
    destruct (split_nonempty sep r) as (w & ws & ->). reflexivity.
Qed.

Lemma split_dotless s : dotless s = true -> split "." s = [s].
Proof.
  unfold dotless. induction s as [|c r IH]; simpl; [reflexivity|].
  intros H. apply andb_true_iff in H as [Hc Hr].
  apply negb_true_iff in Hc. rewrite Hc, (IH Hr). reflexivity.
Qed.

Lemma split_single_dotless s : length (split "." s) = 1%nat -> dotless s = true.
Proof.
  unfold dotless. induction s as [|c r IH]; simpl; [reflexivity|].
  destruct (Ascii.eqb c ".") eqn:Hc; simpl.
  - destruct (split_nonempty "." r) as (w & ws & ->). discriminate.
  - destruct (split_nonempty "." r) as (w & ws & E). rewrite E in *. simpl.
    intros H. apply IH. simpl. exact H.
Qed.

Lemma append_not_empty s c r : String.eqb (s +:+ String c r) "" = false.
Proof. destruct s; reflexivity. Qed.

(** X12: the refinement accepts exactly the addresses whose domain (the
    text between the first and the second at-sign) is an allowed domain, or
    one dot-free label followed by a dot and an allowed domain; a domain with
    two or more labels in front is refused, and the test of the top-level
    domain never decides, since every allowed domain ends in letters. *)
Theorem refinement_accepts_allowed_domains_and_one_label e :
  Waitlist.refine_email e = true <->
  exists d, domain_of e = Some d /\ accepted_domain d.
Proof.
  unfold Waitlist.refine_email, domain_of, accepted_domain. split.
  - destruct (nth_error (split "@" e) 1) as [d|]; [|discriminate].
    destruct (String.eqb d "") eqn:Hd; [discriminate|].
    destruct (Waitlist.domain_allowed d) eqn:Ha; [|discriminate]. cbn [negb].
    intros H. exists d. split; [reflexivity|].
    unfold Waitlist.domain_allowed in Ha. apply existsb_exists in Ha as (a & Hin & Hm).
    exists a. split; [exact Hin|].
    apply orb_true_iff in Hm as [Hm|Hm]; [left; apply String.eqb_eq, Hm|].
    right. apply endsWith_append in Hm as [sub ->]. exists sub. split; [|reflexivity].
    apply split_single_dotless.
    change ("." +:+ a) with (String "." a) in H. rewrite split_at_separator in H.
    destruct ((length (split "." sub ++ split "." a) <? 2)
              || (3 <? length (split "." sub ++ split "." a)))%nat eqn:Hc;
      [discriminate H|].
    apply orb_false_iff in Hc as [_ Hc]. apply Nat.ltb_ge in Hc.
    rewrite length_app in Hc.
    destruct (split_nonempty "." sub) as (w & ws & E). rewrite E in *.
    destruct Hin as [<-|[<-|[<-|[<-|[]]]]]; cbn in Hc; cbn [length]; lia.
  - intros (d & -> & a & Hin & [->|(sub & Hsub & ->)]).
    + destruct Hin as [<-|[<-|[<-|[<-|[]]]]]; reflexivity.
    + change ("." +:+ a) with (String "." a).
      rewrite append_not_empty.
      replace (Waitlist.domain_allowed (sub +:+ String "." a)) with true.
      * cbn [negb]. rewrite split_at_separator, (split_dotless sub Hsub).
        destruct Hin as [<-|[<-|[<-|[<-|[]]]]]; reflexivity.
      * symmetry. unfold Waitlist.domain_allowed. apply existsb_exists.
        exists a. split; [exact Hin|]. apply orb_true_iff. right.
        apply endsWith_append. exists sub. reflexivity.
Qed.

(** X12 at a domain with two labels in front of gmail.com. *)
Lemma two_labels_in_front_are_refused :
  Waitlist.refine_email "user@mail.gmail.com" = true /\
  Waitlist.refine_email "user@a.b.gmail.com" = false /\
  exists d, domain_of "user@mail.gmail.com" = Some d /\ accepted_domain d.
Proof.
  split; [reflexivity|]. split; [reflexivity|].
  apply (proj1 (refinement_accepts_allowed_domains_and_one_label "user@mail.gmail.com")).
  reflexivity.
Defined.

(** ** The client address *)

(** X13: the address a request is counted under is never empty: it is the
    x-forwarded-for header when that is present and not empty, else the
    x-real-ip header when that is present and not empty, else "anonymous";
    so all requests without a usable header are counted together. *)
Theorem client_address_falls_back_to_anonymous request :
  client_ip request <> "" /\
  (forall a, headers_get "x-forwarded-for" (headers request) = Some a -> a <> "" ->
             client_ip request = a) /\
  (truthy (headers_get "x-forwarded-for" (headers request)) = false ->
   forall b, headers_get "x-real-ip" (headers request) = Some b -> b <> "" ->
             client_ip request = b) /\
  (unaddressed request -> client_ip request = "anonymous").
Proof.
  unfold client_ip, unaddressed.
  set (f := headers_get "x-forwarded-for" (headers request)).
  set (x := headers_get "x-real-ip" (headers request)).
  assert (Hcases :
    (exists a, f = Some a /\ a <> "" /\ js_or_else (js_or f x) "anonymous" = a) \/
    (truthy f = false /\
     ((exists b, x = Some b /\ b <> "" /\ js_or_else (js_or f x) "anonymous" = b) \/
      (truthy x = false /\ js_or_else (js_or f x) "anonymous" = "anonymous")))).
  { assert (Hx : (exists b, x = Some b /\ b <> "" /\ js_or_else x "anonymous" = b) \/
                 (truthy x = false /\ js_or_else x "anonymous" = "anonymous")).
    { destruct x as [b|]; [|right; split; reflexivity].
      destruct (String.eqb_spec b "") as [->|Hb].
      - right. split; reflexivity.
      - left. exists b. split; [reflexivity|]. split; [exact Hb|].
        unfold js_or_else, truthy. apply String.eqb_neq in Hb. rewrite Hb. reflexivity. }
    destruct f as [a|]; [|right; split; [reflexivity | exact Hx]].
    destruct (String.eqb_spec a "") as [->|Ha].
    - right. split; [reflexivity | exact Hx].
    - left. exists a. split; [reflexivity|]. split; [exact Ha|].
      unfold js_or, js_or_else, truthy. apply String.eqb_neq in Ha. rewrite Ha.
      cbn. rewrite Ha. reflexivity. }
  assert (Htr : forall a, f = Some a -> a <> "" -> truthy f = true).
  { intros a -> Ha. unfold truthy. apply String.eqb_neq in Ha. rewrite Ha. reflexivity. }
  assert (Htx : forall b, x = Some b -> b <> "" -> truthy x = true).
  { intros b -> Hb. unfold truthy. apply String.eqb_neq in Hb. rewrite Hb. reflexivity. }
  destruct Hcases as [(a & Hf & Ha & E)|(Hf & [(b & Hx & Hb & E)|(Hx & E)])]; rewrite E.
  - split; [exact Ha|]. split; [intros a' Hf' _; congruence|]. split.
    + intros Hff. rewrite (Htr a Hf Ha) in Hff. discriminate.
    + intros [Hff _]. rewrite (Htr a Hf Ha) in Hff. discriminate.
  - split; [exact Hb|]. split.
    + intros a' Hf' Ha'. rewrite (Htr a' Hf' Ha') in Hf. discriminate.
    + split; [intros _ b' Hx' _; congruence|].
      intros [_ Hxx]. rewrite (Htx b Hx Hb) in Hxx. discriminate.
  - split; [discriminate|]. split.
    + intros a' Hf' Ha'. rewrite (Htr a' Hf' Ha') in Hf. discriminate.
    + split; [|reflexivity].
      intros _ b' Hx' Hb'. rewrite (Htx b' Hx' Hb') in Hx. discriminate.
Qed.

(** X13 at a request with an empty x-forwarded-for header. *)
Lemma empty_header_counts_as_anonymous :
  unaddressed {| url := {| origin := ""; path := "/api/waitlist/join"; search := "" |};
                 ip := None; headers := [("x-forwarded-for", "")]; json := None |} /\
  client_ip {| url := {| origin := ""; path := "/api/waitlist/join"; search := "" |};
               ip := None; headers := [("x-forwarded-for", "")]; json := None |}
  = "anonymous".
Proof.
  assert (Hu : unaddressed
            {| url := {| origin := ""; path := "/api/waitlist/join"; search := "" |};
               ip := None; headers := [("x-forwarded-for", "")]; json := None |})
    by (split; reflexivity).
  split; [exact Hu|].
  apply (client_address_falls_back_to_anonymous _). exact Hu.
Defined.

(** ** Which requests the middleware answers itself *)

(** X14: on a pathname that starts with "/api/waitlist" the middleware
    answers 429 or lets the request through, by its limiter alone: the
    session cookie plays no part and there is no redirect; on every other
    pathname the limiter plays no part; and a pathname that starts with
    neither "/api/waitlist" nor "/app" is always let through. *)
Theorem middleware_gates_do_not_overlap getSessionCookie limiter_rejects request :
  (startsWith (path (url request)) "/api/waitlist" = true ->
   Middleware.middleware getSessionCookie limiter_rejects request =
   (if limiter_rejects 5
         ("waitlist:" +:+ js_or_else (js_or (ip request)
                                        (headers_get "x-forwarded-for" (headers request)))
                                     "anonymous")
    then Middleware.rate_limited else Middleware.NextResponse_next)) /\
  (startsWith (path (url request)) "/api/waitlist" = false ->
   forall other_limiter,
     Middleware.middleware getSessionCookie limiter_rejects request =
     Middleware.middleware getSessionCookie other_limiter request) /\
  (startsWith (path (url request)) "/api/waitlist" = false ->
   startsWith (path (url request)) "/app" = false ->
   Middleware.middleware getSessionCookie limiter_rejects request =
   Middleware.NextResponse_next).
Proof.
  unfold Middleware.middleware. split; [|split].
  - intros Hapi. rewrite Hapi.
    destruct (limiter_rejects 5 _); [reflexivity|].
    destruct (startsWith (path (url request)) "/app") eqn:Happ; [|reflexivity].
    apply app_is_not_waitlist_api in Happ. congruence.
  - intros Hapi other. rewrite Hapi. reflexivity.
  - intros Hapi Happ. rewrite Hapi, Happ. reflexivity.
Qed.

(** X14 at the waitlist route and at the landing page. *)
Lemma middleware_at_the_waitlist_route :
  startsWith "/api/waitlist/join" "/api/waitlist" = true /\
  startsWith "/" "/api/waitlist" = false /\ startsWith "/" "/app" = false /\
  Middleware.middleware (fun _ => None) (fun _ _ => false)
    (signup "203.0.113.7" "ada@gmail.com") = Middleware.NextResponse_next /\
  Middleware.middleware (fun _ => None) (fun _ _ => true) (page "/")
    = Middleware.NextResponse_next.
Proof.
  split; [reflexivity|]. split; [reflexivity|]. split; [reflexivity|].
  split.
  - rewrite (proj1 (middleware_gates_do_not_overlap (fun _ => None) (fun _ _ => false)
                      (signup "203.0.113.7" "ada@gmail.com")) eq_refl).
    reflexivity.
  - apply (proj2 (proj2 (middleware_gates_do_not_overlap (fun _ => None) (fun _ _ => true)
                           (page "/")))); reflexivity.
Defined.

(** ** The wait a 429 announces *)

(** X15: the wait a 429 announces is never longer than the window: when
    the clock does not go back, every 429 the in-memory handler gives,
    starting from an empty map, carries a retryAfter of at most 60 seconds;
    every 429 the database-backed handler gives, starting from an empty table
    and while no statement rejects, one of at most 120 seconds. *)
Theorem announced_wait_is_at_most_the_window isEmail reqs w :
  clock_ordered reqs ->
  (rateLimitStore w = ∅ ->
   Forall (wait_at_most 60) (fst (serve (InMemory.POST isEmail) reqs w))) /\
  (rate_limit_attempts (db w) = [] ->
   Forall (fun p => forall n, db_fault (snd p) n = false) reqs ->
   Forall (wait_at_most 120) (fst (serve (DbBacked.POST isEmail) reqs w))).
Proof.
  intros Hord. split.
  - intros Hempty.
    apply (serve_waits_from_nothing (InMemory.POST isEmail) 60000 (fun _ => True)
             (fun w s => rateLimitStore w = s) (step_mem isEmail)
             60 reqs w (rateLimitStore w)); auto.
    apply Forall_forall. auto.
  - intros Hempty Hq.
    apply (serve_waits_from_nothing (DbBacked.POST isEmail) 120000
             (fun env => forall n, db_fault env n = false)
             (fun w s => agree s (rate_limit_attempts (db w))) (step_db isEmail)
             120 reqs w ∅); auto.
    rewrite Hempty. apply agree_empty.
Qed.

(** X15 at a fourth request a moment before the reset. *)
Lemma wait_of_the_fourth_request :
  let reqs := [(signup "203.0.113.7" "ada@gmail.com", at_time 0);
               (signup "203.0.113.7" "ada@gmail.com", at_time 1);
               (signup "203.0.113.7" "ada@gmail.com", at_time 2);
               (signup "203.0.113.7" "ada@gmail.com", at_time 1500)] in
  clock_ordered reqs /\
  rateLimitStore empty_world = ∅ /\
  fst (serve (InMemory.POST Waitlist.zod3_email) reqs empty_world) !! 3%nat
    = Some (Some (response_429 59)) /\
  wait_at_most 60 (Some (response_429 59)).
Proof.
  intros reqs.
  assert (Hord : clock_ordered reqs).
  { split; [repeat constructor; simpl; lia | repeat constructor; simpl; lia]. }
  split; [exact Hord|]. split; [reflexivity|].
  assert (Hl : fst (serve (InMemory.POST Waitlist.zod3_email) reqs empty_world) !! 3%nat
               = Some (Some (response_429 59))) by (vm_compute; reflexivity).
  split; [exact Hl|].
  destruct (announced_wait_is_at_most_the_window Waitlist.zod3_email reqs empty_world Hord)
    as [Hmem _].
  specialize (Hmem eq_refl). rewrite Forall_forall in Hmem.
  apply Hmem. apply list_elem_of_lookup. exists 3%nat. exact Hl.
Defined.

(** ** What a submission gets *)

Lemma join_accepts isEmail msg report request env m fields e :
  json request = Some (JObject fields) ->
  json_get "email" fields = Some (JString e) ->
  isEmail e = true -> Waitlist.refine_email e = true ->
  ~ known (normalized e) (waitlist (db (world m))) ->
  db_fault env (issued m) = false -> db_fault env (S (issued m)) = false ->
  exists m',
    Waitlist.join isEmail msg report request env m = Resolved response_201 m' /\
    waitlist (db (world m')) =
      waitlist (db (world m)) ++ [{| id := nanoid env; email := normalized e |}].
Proof.
  intros Hj Hg H1 H2 Hk Hf1 Hf2.
  pose proof (safeParse_valid isEmail msg fields e Hg H1 H2) as Hp.
  pose proof (join_cases isEmail msg report request env m) as H.
  destruct (Waitlist.join isEmail msg report request env m) as [r m'|m'];
    inversion H; subst; try congruence;
    try (exfalso; match goal with
                  | Hn : known (normalized ?x) _ |- _ =>
                      assert (x = e) by congruence; subst x; contradiction
                  end).
  assert (e0 = e) by congruence. subst e0.
  exists m'. split; [reflexivity | assumption].
Qed.

(** X17: a valid address that is not on the list is accepted: when the
    limiter lets the request through, the body is an object whose email
    passes both tests, no row holds its lower-cased, trimmed form and no
    statement rejects, either handler answers 201 and appends exactly one
    row, with that form as email and the generated id. *)
Theorem valid_new_address_is_accepted isEmail request env w fields e :
  json request = Some (JObject fields) ->
  json_get "email" fields = Some (JString e) ->
  isEmail e = true -> Waitlist.refine_email e = true ->
  ~ known (normalized e) (waitlist (db w)) ->
  (forall n, db_fault env n = false) ->
  (allowed (fst (InMemory.checkRateLimit (client_ip request) 3 60000 (now_check env)
                   (rateLimitStore w))) = true ->
   exists w',
     settle (InMemory.POST isEmail request env (boot w)) = (Some response_201, w') /\
     waitlist (db w') =
       waitlist (db w) ++ [{| id := nanoid env; email := normalized e |}]) /\
  (option_map allowed
     (verdict (DbBacked.checkRateLimitDB (client_ip request) 3 120000 (now_check env)
                 env (boot w))) = Some true ->
   exists w',
     settle (DbBacked.POST isEmail request env (boot w)) = (Some response_201, w') /\
     waitlist (db w') =
       waitlist (db w) ++ [{| id := nanoid env; email := normalized e |}]).
Proof.
  intros Hj Hg H1 H2 Hk Hq. split.
  - intros Hal. rewrite POST_caught_mem, POST_try_mem. cbn zeta.
    change (world (boot w)) with w. rewrite Hal.
    match goal with |- context [Waitlist.join ?x1 ?x2 ?x3 ?x4 ?x5 ?x6] =>
      destruct (join_accepts x1 x2 x3 x4 x5 x6 fields e) as (m' & -> & Hw); auto end.
    cbn [caught settle]. eexists. split; [reflexivity | exact Hw].
  - intros Hal. rewrite POST_caught_db, POST_try_db.
    pose proof (checkRateLimitDB_waitlist (client_ip request) 3 120000 (now_check env)
                  env (boot w)) as Hw1.
    destruct (DbBacked.checkRateLimitDB _ _ _ _ _ _) as [r m1|m1]; [|discriminate].
    destruct Hw1 as [Hw1 _]. simpl in Hal. injection Hal as ->.
    destruct (join_accepts isEmail "Invalid email, please try again"
                (fun issues => ErrFirst (head issues)) request env m1 fields e)
      as (m' & -> & Hw); auto.
    { rewrite Hw1. exact Hk. }
    cbn [caught settle]. eexists. split; [reflexivity|]. rewrite Hw, Hw1. reflexivity.
Qed.

(** X17 at a first signup. *)
Lemma first_signup_is_accepted :
  ~ known (normalized "Bob@gmail.com") (waitlist (db listed_world)) /\
  fst (settle (InMemory.POST Waitlist.zod3_email (signup "203.0.113.7" "Bob@gmail.com")
                 (at_time 0) (boot listed_world))) = Some response_201 /\
  fst (settle (DbBacked.POST Waitlist.zod3_email (signup "203.0.113.7" "Bob@gmail.com")
                 (at_time 0) (boot listed_world))) = Some response_201.
Proof.
  assert (Hk : ~ known (normalized "Bob@gmail.com") (waitlist (db listed_world))).
  { intros (row & [<-|[]] & He). discriminate He. }
  destruct (valid_new_address_is_accepted Waitlist.zod3_email
              (signup "203.0.113.7" "Bob@gmail.com") (at_time 0) listed_world
              [("email", JString "Bob@gmail.com")] "Bob@gmail.com"
              eq_refl eq_refl eq_refl eq_refl Hk (fun _ => eq_refl)) as [Hmem Hdb].
  split; [exact Hk|]. split.
  - destruct (Hmem eq_refl) as (w' & E & _). rewrite E. reflexivity.
  - destruct (Hdb eq_refl) as (w' & E & _). rewrite E. reflexivity.
Defined.

Lemma join_invalid_answer isEmail msg report request env m b issues :
  json request = Some b ->
  Waitlist.safeParse isEmail msg b = inr issues ->
  exists m',
    Waitlist.join isEmail msg report request env m
      = Resolved (response_400 (report issues)) m' /\
    world m' = world m /\ events m' = events m ++ [EvReadBody].
Proof.
  intros Hj Hp.
  pose proof (join_cases isEmail msg report request env m) as H.
  destruct (Waitlist.join isEmail msg report request env m) as [r m'|m'];
    inversion H; subst; try congruence.
  assert (issues0 = issues) by congruence. subst issues0.
  exists m'. auto.
Qed.

(** X18: a body that parses but fails the schema never reaches the
    waitlist table: once the limiter has let the request through, the handler
    answers 400 with success=false after reading the body and issues no
    statement on the waitlist; the in-memory file reports the whole formatted
    error, the database-backed file the message of the first issue. *)
Theorem invalid_submission_issues_no_waitlist_statement isEmail request env m b :
  json request = Some b ->
  (forall issues,
     Waitlist.safeParse isEmail "Email domain or TLD is not allowed" b = inr issues ->
     allowed (fst (InMemory.checkRateLimit (client_ip request) 3 60000 (now_check env)
                     (rateLimitStore (world m)))) = true ->
     exists m',
       InMemory.POST isEmail request env m
         = Resolved (response_400 (ErrFormat issues)) m' /\
       db (world m') = db (world m) /\
       events m' = events m ++ [EvReadBody]) /\
  (forall issues r m1,
     Waitlist.safeParse isEmail "Invalid email, please try again" b = inr issues ->
     DbBacked.checkRateLimitDB (client_ip request) 3 120000 (now_check env) env m
       = Resolved r m1 ->
     allowed r = true ->
     exists m',
       DbBacked.POST isEmail request env m
         = Resolved (response_400 (ErrFirst (head issues))) m' /\
       world m' = world m1 /\
       waitlist (db (world m')) = waitlist (db (world m)) /\
       events m' = events m1 ++ [EvReadBody]).
Proof.
  intros Hj. split.
  - intros issues Hp Hal. rewrite POST_caught_mem, POST_try_mem. cbn zeta. rewrite Hal.
    match goal with |- context [Waitlist.join ?x1 ?x2 ?x3 ?x4 ?x5 ?x6] =>
      destruct (join_invalid_answer x1 x2 x3 x4 x5 x6 b issues Hj Hp)
        as (m' & -> & Hw & Hev) end.
    cbn [caught]. exists m'. split; [reflexivity|]. rewrite Hw, Hev. cbn.
    split; reflexivity.
  - intros issues r m1 Hp Hrun Hal. rewrite POST_caught_db, POST_try_db, Hrun, Hal.
    destruct (join_invalid_answer isEmail "Invalid email, please try again"
                (fun issues => ErrFirst (head issues)) request env m1 b issues Hj Hp)
      as (m' & -> & Hw & Hev).
    cbn [caught]. exists m'. split; [reflexivity|]. split; [exact Hw|].
    split; [|exact Hev]. rewrite Hw.
    pose proof (checkRateLimitDB_waitlist (client_ip request) 3 120000 (now_check env)
                  env m) as H. rewrite Hrun in H. apply H.
Qed.

(** X18 at a body without an email. *)
Lemma body_without_email_is_refused :
  let request := {| url := {| origin := ""; path := "/api/waitlist/join"; search := "" |};
                    ip := None; headers := [];
                    json := Some (JObject [("mail", JString "ada@gmail.com")]) |} in
  json request = Some (JObject [("mail", JString "ada@gmail.com")]) /\
  option_map status
    (verdict (InMemory.POST Waitlist.zod3_email request (at_time 0) (boot empty_world)))
    = Some 400 /\
  events (final (InMemory.POST Waitlist.zod3_email request (at_time 0) (boot empty_world)))
    = [EvReadBody].
Proof.
  intros request. split; [reflexivity|].
  destruct (invalid_submission_issues_no_waitlist_statement Waitlist.zod3_email request
              (at_time 0) (boot empty_world) _ eq_refl) as [Hmem _].
  destruct (Hmem [invalid_type] eq_refl eq_refl) as (m' & E & _ & Hev).
  rewrite E. split; [reflexivity | exact Hev].
Defined.
